(** * SpringRoll [Application]: plugin lifecycle, state channels, legacy mutes

    A shallow embedding of [Application.js] (the class [Application], its
    static plugin list with [uses] and [getPlugin], [setupPlugins] and
    [validateListeners]) and the properties of it that the specification
    states.

    JavaScript values are an inductive type with IEEE doubles for numbers,
    objects used as maps are [gmap]s, descriptor objects live in a store
    indexed by references (two entries of the plugin list may be the same
    object), exceptions are explicit completions, and promises are described
    by how they settle. *)

From Stdlib Require Import Floats Ascii.
From stdpp Require Import base option list strings gmap functions.

#[local] Set Warnings "-register-all,-inexact-float".

(** ** JavaScript values *)

Inductive JsVal :=
| JUndefined
| JNull
| JBool (b : bool)
| JNum (x : float)
| JStr (s : string)
| JObj (fields : gmap string JsVal).

(** [ToBoolean]: what [if (v)], [v ? a : b], [!v] and [v || w] test. *)
Definition truthy (v : JsVal) : bool :=
  match v with
  | JUndefined | JNull => false
  | JBool b => b
  | JNum x => negb (PrimFloat.eqb x 0%float || PrimFloat.is_nan x)
  | JStr s => negb (String.eqb s "")
  | JObj _ => true
  end.

(** [a || b] *)
Definition js_or (a b : JsVal) : JsVal := if truthy a then a else b.

(** [a === b]. Values carry no object identity, and two objects built
    separately are never identical, so objects compare unequal. *)
Definition strict_eq (a b : JsVal) : bool :=
  match a, b with
  | JUndefined, JUndefined => true
  | JNull, JNull => true
  | JBool x, JBool y => Bool.eqb x y
  | JNum x, JNum y => PrimFloat.eqb x y
  | JStr x, JStr y => String.eqb x y
  | _, _ => false
  end.

(** A thrown value: an [Error] object with its constructor's name and its
    [message]. *)
Record Exn := { exn_name : string; message : string }.

Definition Error (msg : string) : Exn := {| exn_name := "Error"; message := msg |}.
Definition TypeError (msg : string) : Exn := {| exn_name := "TypeError"; message := msg |}.

(** The completion of a call: it returns or it throws. *)
Inductive Completion (A : Type) :=
| Normal (a : A)
| Throw (e : Exn).
Arguments Normal {A} a.
Arguments Throw {A} e.

(** ** Property *)

(** Modelled from the spec: the class [Property] of [./state/Property.js],
    which the sources import and do not include. It owns a current value, a
    previous value and an ordered collection of listeners; listeners are
    named by numbers and their invocations are recorded, in order. *)
Record Property := {
  value : JsVal;
  _previousValue : JsVal;
  listeners : list nat
}.

(** Modelled from the spec: [new Property(v)], the constructor is missing
    with its class; no previous value and no listener yet. *)
Definition new_Property (v : JsVal) : Property :=
  {| value := v; _previousValue := JUndefined; listeners := [] |}.

(** Modelled from the spec: the getter [hasListeners] of the missing class,
    true iff the listener count is greater than zero. *)
Definition hasListeners (p : Property) : bool :=
  bool_decide (0 < length (listeners p)).

(** Modelled from the spec: [on(listener)] of the missing class appends the
    listener. *)
Definition on (l : nat) (p : Property) : Property :=
  {| value := value p; _previousValue := _previousValue p;
     listeners := listeners p ++ [l] |}.

(** The assignment [property._previousValue = v] that the legacy mute
    listeners of the constructor make from outside the class. *)
Definition set_previousValue (v : JsVal) (p : Property) : Property :=
  {| value := value p; _previousValue := v; listeners := listeners p |}.

(** ** State channels *)

(** The keys of [this.state]: a fixed, closed set, each bound to one
    [Property] for the life of the application. The constants [pause],
    [captionsMuted], [soundVolume], [musicVolume], [voVolume] and
    [sfxVolume] of the file are the keys of that name; [channel_name] is the
    string a key stands for as a transport event or in a message. *)
Inductive Channel :=
| ready
| pause
| captionsMuted
| playOptions
| soundVolume
| musicVolume
| voVolume
| sfxVolume.

#[global] Instance Channel_eq_dec : EqDecision Channel.
Proof. solve_decision. Defined.

Definition channel_name (c : Channel) : string :=
  match c with
  | ready => "ready"
  | pause => "pause"
  | captionsMuted => "captionsMuted"
  | playOptions => "playOptions"
  | soundVolume => "soundVolume"
  | musicVolume => "musicVolume"
  | voVolume => "voVolume"
  | sfxVolume => "sfxVolume"
  end.

Definition playHelp : string := "playHelp".

(** ** The transport, the window and the logs *)

(** The arrow functions the constructor hands to [container.on], by what
    they do when called with a container event. *)
Inductive Handler :=
| SyncProperty (c : Channel)
| LegacyMute (c : Channel)
| PlayHelp.

(** The arrow function handed to [container.fetch]. *)
Inductive FetchHandler :=
| FetchPlayOptions.

(** [BellhopSingleton], seen from this file: whether [connect] was called,
    the messages sent, and the handlers registered with [on] and [fetch],
    each list in call order. *)
Record Bellhop := {
  connected : bool;
  sent : list (string * JsVal);
  handlers : list (string * Handler);
  fetching : list (string * FetchHandler)
}.

Inductive HintPlayer :=
| HintSequencePlayer
| CustomHintPlayer (id : nat).

Inductive LogArg :=
| LStr (s : string)
| LExn (e : Exn).

(** The application object together with the globals its code touches: the
    [window] listeners, the entries of [Debugger.log] and of
    [console.warn], the listener invocations made by property setters and
    the calls of [hints.play()]. [hints] is [None] while the field holds a
    falsy value. *)
Record Application := {
  state : Channel → Property;
  features : gmap string JsVal;
  container : Bellhop;
  hints : option HintPlayer;
  window : list (string * bool);
  debugLog : list (string * LogArg);
  console : list (string * Exn);
  notified : list (Channel * nat * JsVal);
  hintPlays : nat
}.

Definition with_state (f : (Channel → Property) → (Channel → Property))
    (app : Application) : Application :=
  {| state := f (state app); features := features app; container := container app;
     hints := hints app; window := window app; debugLog := debugLog app;
     console := console app; notified := notified app; hintPlays := hintPlays app |}.

Definition with_features (f : gmap string JsVal) (app : Application) : Application :=
  {| state := state app; features := f; container := container app;
     hints := hints app; window := window app; debugLog := debugLog app;
     console := console app; notified := notified app; hintPlays := hintPlays app |}.

Definition with_container (f : Bellhop → Bellhop) (app : Application) : Application :=
  {| state := state app; features := features app; container := f (container app);
     hints := hints app; window := window app; debugLog := debugLog app;
     console := console app; notified := notified app; hintPlays := hintPlays app |}.

Definition with_hints (h : option HintPlayer) (app : Application) : Application :=
  {| state := state app; features := features app; container := container app;
     hints := h; window := window app; debugLog := debugLog app;
     console := console app; notified := notified app; hintPlays := hintPlays app |}.

(** [window.addEventListener(ev, () => this.container.send('focus', b))] *)
Definition window_addEventListener (ev : string) (b : bool) (app : Application) : Application :=
  {| state := state app; features := features app; container := container app;
     hints := hints app; window := window app ++ [(ev, b)]; debugLog := debugLog app;
     console := console app; notified := notified app; hintPlays := hintPlays app |}.

(** [Debugger.log(level, arg)] *)
Definition Debugger_log (level : string) (arg : LogArg) (app : Application) : Application :=
  {| state := state app; features := features app; container := container app;
     hints := hints app; window := window app;
     debugLog := debugLog app ++ [(level, arg)];
     console := console app; notified := notified app; hintPlays := hintPlays app |}.

(** [console.warn(name, 'Preload Failed:', error)] *)
Definition console_warn (name : string) (error : Exn) (app : Application) : Application :=
  {| state := state app; features := features app; container := container app;
     hints := hints app; window := window app; debugLog := debugLog app;
     console := console app ++ [(name, error)];
     notified := notified app; hintPlays := hintPlays app |}.

Definition record_notified (ns : list (Channel * nat * JsVal)) (app : Application) : Application :=
  {| state := state app; features := features app; container := container app;
     hints := hints app; window := window app; debugLog := debugLog app;
     console := console app; notified := notified app ++ ns; hintPlays := hintPlays app |}.

(** A call of [play] on the hint player is counted. *)
Definition count_play (app : Application) : Application :=
  {| state := state app; features := features app; container := container app;
     hints := hints app; window := window app; debugLog := debugLog app;
     console := console app; notified := notified app; hintPlays := S (hintPlays app) |}.

(** [this.container.connect()] *)
Definition container_connect (app : Application) : Application :=
  with_container (λ b, {| connected := true; sent := sent b;
                          handlers := handlers b; fetching := fetching b |}) app.

(** [this.container.send(ev, data)] *)
Definition container_send (ev : string) (data : JsVal) (app : Application) : Application :=
  with_container (λ b, {| connected := connected b; sent := sent b ++ [(ev, data)];
                          handlers := handlers b; fetching := fetching b |}) app.

(** [this.container.on(ev, handler)] *)
Definition container_on (ev : string) (h : Handler) (app : Application) : Application :=
  with_container (λ b, {| connected := connected b; sent := sent b;
                          handlers := handlers b ++ [(ev, h)]; fetching := fetching b |}) app.

(** [this.container.fetch(ev, handler)] *)
Definition container_fetch (ev : string) (h : FetchHandler) (app : Application) : Application :=
  with_container (λ b, {| connected := connected b; sent := sent b;
                          handlers := handlers b; fetching := fetching b ++ [(ev, h)] |}) app.

(** ** What the file uses and does not define *)

(** The two built-ins of the play-options parse, the one choice the
    specification leaves to the [Property] class (whether assigning the
    value already held notifies), and the method [play] of the hint player.
    The player is an object handed to the constructor from outside
    ([HintSequencePlayer] by default, imported and not included): what its
    [play()] does to the application and to the globals is not known here,
    so it is any function. *)
Class Externals := {
  same_value_fires : bool;
  decodeURIComponent : string → Completion string;
  JSON_parse : string → Completion JsVal;
  play : HintPlayer → Application → Application
}.

(** ** The setter of [Property] *)

Section PropertySetter.
Context `{Externals}.

(** Modelled from the spec: the setter [value] of the missing class stores
    the previous value, then the current value, then invokes the listeners
    in registration order; assigning the value already held is a no-op or
    fires again, as [same_value_fires] says. The result pairs the new cell
    with the invocations made, each a listener and the value it received. *)
Definition set_value (v : JsVal) (p : Property) : Property * list (nat * JsVal) :=
  if strict_eq (value p) v && negb same_value_fires then (p, [])
  else ({| value := v; _previousValue := value p; listeners := listeners p |},
        (λ l, (l, v)) <$> listeners p).

End PropertySetter.

Section Handlers.
Context `{Externals}.

(** [this.hints.play()], [this.hints] holding the player [h]: the call is
    counted and the player does what it does. *)
Definition hints_play (h : HintPlayer) (app : Application) : Application :=
  play h (count_play app).

(** [this.state[c].value = v], with the listener invocations recorded. *)
Definition assign (c : Channel) (v : JsVal) (app : Application) : Application :=
  let '(p, ns) := set_value v (state app c) in
  record_notified ((λ n, (c, n.1, n.2)) <$> ns) (with_state <[c := p]> app).

(** The legacy mute listener of lines 102-106, for the volume property
    [c], called with a container event whose [data] is [data]:
<<
    const previousValue = property._previousValue || 1;
    property._previousValue = property.value;
    property.value = containerEvent.data ? 0 : previousValue;
>> *)
Definition legacyMute (c : Channel) (data : JsVal) (app : Application) : Application :=
  let property := state app c in
  let previousValue := js_or (_previousValue property) (JNum 1) in
  let app := with_state <[c := set_previousValue (value property) property]> app in
  assign c (if truthy data then JNum 0 else previousValue) app.

(** The [playHelp] handler of lines 153-163. *)
Definition onPlayHelp (app : Application) : Application :=
  match hints app with
  | None =>
      Debugger_log "warn"
        (LStr "[Springroll] Missing IHintPlayer see: https://github.com/SpringRoll/SpringRoll/tree/v2/src/hints")
        app
  | Some h => hints_play h app
  end.

Definition run_handler (h : Handler) (data : JsVal) (app : Application) : Application :=
  match h with
  | SyncProperty c => assign c data app
  | LegacyMute c => legacyMute c data app
  | PlayHelp => onPlayHelp app
  end.

(** The container delivers the event [ev] with payload [data]: every
    handler registered for [ev] runs, in registration order. *)
Definition receive (ev : string) (data : JsVal) (app : Application) : Application :=
  foldl (λ a eh, if String.eqb eh.1 ev then run_handler eh.2 data a else a)
        app (handlers (container app)).

(** The container answers a [fetch] of [ev] with [data]. *)
Definition receive_fetch (ev : string) (data : JsVal) (app : Application) : Application :=
  foldl (λ a eh, if String.eqb eh.1 ev
                 then match eh.2 with FetchPlayOptions => assign playOptions data a end
                 else a)
        app (fetching (container app)).

(** The window fires [ev] (['focus'] or ['blur']). *)
Definition window_event (ev : string) (app : Application) : Application :=
  foldl (λ a eb, if String.eqb eb.1 ev then container_send "focus" (JBool eb.2) a else a)
        app (window app).

End Handlers.

(** ** Plugins *)

(** A reference to a descriptor object. [Application._plugins] holds
    references: the same object may be registered more than once, and the
    flag [preloadFailed] is set on the object. *)
Definition ref := nat.

(** How a promise ends: fulfilled, rejected with an error, or never. *)
Inductive Settlement :=
| Fulfils
| Rejects (e : Exn)
| Pends.

(** What the call [plugin.preload(this)] followed by [.catch(...)] does: the
    hook returns a promise, or the expression throws (the hook throws, or
    what it returns has no [catch]). *)
Inductive PreloadResult :=
| PreloadThrows (e : Exn)
| PreloadReturns (s : Settlement).

(** A descriptor. A hook is [None] when the field is missing (falsy);
    called with the application it changes it and, for [init] and [start],
    may throw; [preloadFailed] is true when the field is [=== true]. Hooks
    act on the application they are handed: a hook that registers plugins or
    rewrites descriptors while [setupPlugins] runs is outside the model. *)
Record Plugin := {
  name : string;
  preload : option (Application → Application * PreloadResult);
  init : option (Application → Application * option Exn);
  start : option (Application → Application * option Exn);
  preloadFailed : bool
}.

(** [plugin.preloadFailed = true] *)
Definition fail_preload (p : Plugin) : Plugin :=
  {| name := name p; preload := preload p; init := init p; start := start p;
     preloadFailed := true |}.

(** The static side of the class: [Application._plugins] and the objects
    its entries refer to. *)
Record Registry := {
  _plugins : list ref;
  objects : ref → Plugin
}.

(** [Application._plugins = []] *)
Definition no_plugins (objs : ref → Plugin) : Registry :=
  {| _plugins := []; objects := objs |}.

(** [Application.uses(plugin)] *)
Definition uses (plugin : ref) (reg : Registry) : Registry :=
  {| _plugins := _plugins reg ++ [plugin]; objects := objects reg |}.

(** [Application.getPlugin(name)]: [Array.prototype.find] with the test
    [plugin.name === name]; [None] is [undefined]. *)
Definition getPlugin (nm : string) (reg : Registry) : option ref :=
  List.find (λ plugin, String.eqb (name (objects reg plugin)) nm) (_plugins reg).

(** What an observer of the lifecycle sees: a [preload] hook called, the
    promise it returned settled (fulfilled or not), an [init] or a [start]
    hook called. *)
Inductive Event :=
| PreloadCalled (r : ref)
| PreloadSettled (r : ref) (fulfilled : bool)
| InitCalled (r : ref)
| StartCalled (r : ref).

(** The state [setupPlugins] works on. *)
Record Run := {
  run_reg : Registry;
  run_app : Application;
  run_trace : list Event
}.

(** The loop of lines 174-191 over the entries not yet visited: [preloads]
    collects, for each promise pushed, the descriptor and how [preload]'s
    promise ends. A descriptor with no [preload] makes the function
    [return]. *)
Inductive PreloadLoop :=
| LoopReturned
| LoopThrew (e : Exn)
| LoopDone (preloads : list (ref * Settlement)).

Fixpoint preloadLoop (objs : ref → Plugin) (todo : list ref)
    (preloads : list (ref * Settlement)) (app : Application) (tr : list Event)
    : PreloadLoop * Application * list Event :=
  match todo with
  | [] => (LoopDone preloads, app, tr)
  | r :: todo' =>
      match preload (objs r) with
      | None => (LoopReturned, app, tr)
      | Some hook =>
          match hook app with
          | (app', PreloadThrows e) => (LoopThrew e, app', tr ++ [PreloadCalled r])
          | (app', PreloadReturns s) =>
              preloadLoop objs todo' (preloads ++ [(r, s)]) app' (tr ++ [PreloadCalled r])
          end
      end
  end.

(** The synchronous part of [setupPlugins()]: what the call evaluates to. *)
Inductive SetupCall :=
| ReturnsUndefined
| Throws (e : Exn)
| ReturnsPromise (preloads : list (ref * Settlement)).

Definition setupPlugins_call (reg : Registry) (app : Application)
    : SetupCall * Application * list Event :=
  match preloadLoop (objects reg) (_plugins reg) [] app [] with
  | (LoopReturned, app', tr) => (ReturnsUndefined, app', tr)
  | (LoopThrew e, app', tr) => (Throws e, app', tr)
  | (LoopDone preloads, app', tr) => (ReturnsPromise preloads, app', tr)
  end.

(** One promise of [preloads] settles. On rejection the handler
    [preloadFail] of lines 182-189 runs for its descriptor (the registry is
    not touched before every promise has settled, so
    [Application._plugins[i]] is still the descriptor it was launched
    for). *)
Definition settle (p : ref * Settlement) (run : Run) : Run :=
  match p.2 with
  | Fulfils =>
      {| run_reg := run_reg run; run_app := run_app run;
         run_trace := run_trace run ++ [PreloadSettled p.1 true] |}
  | Rejects error =>
      {| run_reg := {| _plugins := _plugins (run_reg run);
                       objects := alter fail_preload p.1 (objects (run_reg run)) |};
         run_app := console_warn (name (objects (run_reg run) p.1)) error (run_app run);
         run_trace := run_trace run ++ [PreloadSettled p.1 false] |}
  | Pends => run
  end.

(** The [k]-th element of a non-empty list, counting cyclically, and the
    rest. *)
Definition pick {A} (k : nat) (l : list A) : option (A * list A) :=
  match l !! (k `mod` length l) with
  | Some x => Some (x, delete (k `mod` length l) l)
  | None => None
  end.

(** The promises in [waiting] settle one after the other, in the order the
    schedule [sched] picks (an exhausted schedule picks the first). *)
Fixpoint settleAll (fuel : nat) (sched : list nat) (waiting : list (ref * Settlement))
    (run : Run) : Run :=
  match fuel with
  | 0 => run
  | S fuel' =>
      match pick (hd 0 sched) waiting with
      | None => run
      | Some (p, rest) => settleAll fuel' (tl sched) rest (settle p run)
      end
  end.

Definition settles (p : ref * Settlement) : bool :=
  match p.2 with
  | Pends => false
  | _ => true
  end.

(** [Promise.all(preloads)]: every promise that settles does so, in
    schedule order; the barrier opens iff none of them pends. (Each promise
    is wrapped by [.catch], so none of those awaited rejects.) *)
Definition barrier (sched : list nat) (preloads : list (ref * Settlement)) (run : Run)
    : bool * Run :=
  (forallb settles preloads,
   settleAll (length preloads) sched (List.filter settles preloads) run).

(** The loops of lines 201-206 and 209-214: a descriptor without the hook
    makes the callback [return]; a hook that throws ends it too. *)
Inductive HookLoop :=
| HooksDone
| HooksReturned
| HooksThrew (e : Exn).

Fixpoint hookLoop (hook : Plugin → option (Application → Application * option Exn))
    (ev : ref → Event) (objs : ref → Plugin) (todo : list ref)
    (app : Application) (tr : list Event) : HookLoop * Application * list Event :=
  match todo with
  | [] => (HooksDone, app, tr)
  | r :: todo' =>
      match hook (objs r) with
      | None => (HooksReturned, app, tr)
      | Some h =>
          match h app with
          | (app', Some e) => (HooksThrew e, app', tr ++ [ev r])
          | (app', None) => hookLoop hook ev objs todo' app' (tr ++ [ev r])
          end
      end
  end.

(** The callback of [Promise.all(preloads).then] (lines 194-215) and how the
    promise it produces ends. *)
Definition afterPreloads (run : Run) : Settlement * Run :=
  let objs := objects (run_reg run) in
  let plugins := filter (λ plugin, preloadFailed (objs plugin) ≠ true) (_plugins (run_reg run)) in
  let reg := {| _plugins := plugins; objects := objs |} in
  match hookLoop init InitCalled objs plugins (run_app run) (run_trace run) with
  | (HooksThrew e, app, tr) =>
      (Rejects e, {| run_reg := reg; run_app := app; run_trace := tr |})
  | (HooksReturned, app, tr) =>
      (Fulfils, {| run_reg := reg; run_app := app; run_trace := tr |})
  | (HooksDone, app, tr) =>
      match hookLoop start StartCalled objs plugins app tr with
      | (HooksThrew e, app', tr') =>
          (Rejects e, {| run_reg := reg; run_app := app'; run_trace := tr' |})
      | (_, app', tr') =>
          (Fulfils, {| run_reg := reg; run_app := app'; run_trace := tr' |})
      end
  end.

(** How the promise returned by [setupPlugins()] ends, and the state it
    leaves. *)
Definition setupPlugins_promise (sched : list nat) (preloads : list (ref * Settlement))
    (run : Run) : Settlement * Run :=
  match barrier sched preloads run with
  | (true, run') => afterPreloads run'
  | (false, run') => (Pends, run')
  end.

(** What [setupPlugins()] comes to. *)
Inductive SetupOutcome :=
| SetupUndefined
| SetupThrew (e : Exn)
| SetupPromise (s : Settlement).

(** [setupPlugins()] from the call to the end of its promise; [between] is
    whatever else happens to the application after the call has returned
    and before the promises settle. *)
Definition setupPlugins (sched : list nat) (between : Application → Application)
    (reg : Registry) (app : Application) : SetupOutcome * Run :=
  match setupPlugins_call reg app with
  | (ReturnsUndefined, app', tr) =>
      (SetupUndefined, {| run_reg := reg; run_app := app'; run_trace := tr |})
  | (Throws e, app', tr) =>
      (SetupThrew e, {| run_reg := reg; run_app := app'; run_trace := tr |})
  | (ReturnsPromise preloads, app', tr) =>
      let r := setupPlugins_promise sched preloads
                 {| run_reg := reg; run_app := between app'; run_trace := tr |} in
      (SetupPromise r.1, r.2)
  end.

(** ** Feature flags *)

(** The defaults of lines 46-56. *)
Definition default_features : gmap string JsVal :=
  list_to_map
    [("captions", JBool false); ("sound", JBool false); ("vo", JBool false);
     ("music", JBool false); ("sfx", JBool false); ("soundVolume", JBool false);
     ("musicVolume", JBool false); ("voVolume", JBool false);
     ("sfxVolume", JBool false)].

(** [Object.assign(target, source)]: the keys of [source] win. *)
Definition Object_assign (target source : gmap string JsVal) : gmap string JsVal :=
  source ∪ target.

(** [obj[k]], [undefined] for a key the object does not have. *)
Definition get (k : string) (obj : gmap string JsVal) : JsVal :=
  default JUndefined (obj !! k).

(** Lines 45-63: [this.features]. The argument is [None] when [features] is
    missing or falsy ([features || {}]). *)
Definition make_features (features : option (gmap string JsVal)) : gmap string JsVal :=
  let fs := Object_assign default_features (default ∅ features) in
  if truthy (get "vo" fs) || truthy (get "music" fs) || truthy (get "sfx" fs)
  then <["sound" := JBool true]> fs
  else fs.

(** ** validateListeners *)

(** [featureToStateMap], in the order of [Object.keys]. *)
Definition featureToStateMap : list (string * Channel) :=
  [("captions", captionsMuted); ("sound", soundVolume); ("music", musicVolume);
   ("vo", voVolume); ("sfx", sfxVolume)].

(** The array [missingListeners] after the loop of lines 245-251 and the
    test of [pause] of lines 253-255. *)
Definition missingListeners (app : Application) : list string :=
  let missing :=
    foldl (λ acc ks,
             if truthy (get ks.1 (features app)) && negb (hasListeners (state app ks.2))
             then acc ++ [channel_name ks.2]
             else acc)
          [] featureToStateMap in
  if negb (hasListeners (state app pause)) then missing ++ ["pause"] else missing.

(** The error of lines 258-262. *)
Definition missing_error (missing : list string) : Exn :=
  Error ("Application state is missing required listeners: "
         +:+ String.concat ", " missing +:+ ".").

Definition validateListeners (app : Application) : Completion unit :=
  let missing := missingListeners app in
  if bool_decide (length missing ≠ 0) then Throw (missing_error missing) else Normal ().

(** ** The play options of the query string *)

(** [s] without its prefix [pat], when it starts with [pat]. *)
Fixpoint strip_prefix (pat s : string) : option string :=
  match pat, s with
  | EmptyString, _ => Some s
  | String a pat', String b s' => if Ascii.eqb a b then strip_prefix pat' s' else None
  | String _ _, EmptyString => None
  end.

(** The text after the first occurrence of [pat] in [s]. *)
Fixpoint after_first (pat s : string) : option string :=
  match strip_prefix pat s with
  | Some rest => Some rest
  | None =>
      match s with
      | EmptyString => None
      | String _ s' => after_first pat s'
      end
  end.

(** [[^&$]*]: the longest prefix with no ['&'] and no ['$']. *)
Fixpoint value_run (s : string) : string :=
  match s with
  | EmptyString => EmptyString
  | String c s' =>
      if Ascii.eqb c "&"%char || Ascii.eqb c "$"%char then EmptyString
      else String c (value_run s')
  end.

(** [/playOptions=[^&$]*/.exec(search)]: [match[0]], or [None] for [null]. *)
Definition exec_playOptions (search : string) : option string :=
  (λ rest, "playOptions=" +:+ value_run rest) <$> after_first "playOptions=" search.

(** [s.split(sep)] for a separator of one character. *)
Fixpoint split (sep : Ascii.ascii) (s : string) : list string :=
  match s with
  | EmptyString => [EmptyString]
  | String c s' =>
      if Ascii.eqb c sep then EmptyString :: split sep s'
      else match split sep s' with
           | [] => [String c EmptyString]
           | piece :: pieces => String c piece :: pieces
           end
  end.

Section Construction.
Context `{Externals}.

(** Lines 115-128. The URL decoding stands outside the [try], the parse
    inside. *)
Definition queryPlayOptions (search : string) (app : Application) : Completion Application :=
  match exec_playOptions search with
  | None => Normal app
  | Some matchedToken =>
      match decodeURIComponent (default "undefined" (split "="%char matchedToken !! 1)) with
      | Throw e => Throw e
      | Normal rawValue =>
          match JSON_parse rawValue with
          | Normal v => Normal (assign playOptions v app)
          | Throw e =>
              Normal (Debugger_log "warn"
                        (LStr ("Failed to parse playOptions from query string:" +:+ message e))
                        app)
          end
      end
  end.

(** ** The constructor *)

(** The argument of the constructor: [features] is [None] when missing or
    falsy; [hintPlayer] is [None] when missing (the default applies),
    [Some None] when a falsy value is passed. *)
Record Config := {
  cfg_features : option (gmap string JsVal);
  cfg_hintPlayer : option (option HintPlayer)
}.

(** Lines 34-43. *)
Definition initial_state (c : Channel) : Property :=
  match c with
  | ready => new_Property (JBool false)
  | pause => new_Property (JBool false)
  | captionsMuted => new_Property (JBool true)
  | playOptions => new_Property (JObj ∅)
  | soundVolume | musicVolume | voVolume | sfxVolume => new_Property (JNum 1)
  end.

(** The application before the constructor body runs, with nothing sent,
    registered or logged yet. *)
Definition blank (features : gmap string JsVal) : Application :=
  {| state := initial_state; features := features;
     container := {| connected := false; sent := []; handlers := []; fetching := [] |};
     hints := None; window := []; debugLog := []; console := []; notified := [];
     hintPlays := 0 |}.

(** Lines 73-80 and 93-98. *)
Definition events : list Channel :=
  [soundVolume; musicVolume; voVolume; sfxVolume; captionsMuted; pause].

Definition legacyListeners : list (string * Channel) :=
  [("soundMuted", soundVolume); ("musicMuted", musicVolume);
   ("voMuted", voVolume); ("sfxMuted", sfxVolume)].

(** Lines 34-112: state, features, connection and listeners. *)
Definition connect_and_listen (cfg : Config) : Application :=
  let app := blank (make_features (cfg_features cfg)) in
  let app := container_connect app in
  let app := container_send "features" (JObj (features app)) app in
  let app := container_send "keepFocus" (JBool false) app in
  let app := foldl (λ a c, container_on (channel_name c) (SyncProperty c) a) app events in
  let app := foldl (λ a mv, container_on mv.1 (LegacyMute mv.2) a) app legacyListeners in
  let app := window_addEventListener "focus" true app in
  window_addEventListener "blur" false app.

(** Lines 151-163. *)
Definition register_hints (cfg : Config) (app : Application) : Application :=
  container_on playHelp PlayHelp
    (with_hints (default (Some HintSequencePlayer) (cfg_hintPlayer cfg)) app).

(** What [new Application(config)] does before it returns: it throws, or it
    returns with the chain of lines 136-149 attached to the promise of
    [setupPlugins()], whose preload promises are [preloads]. *)
Inductive Constructed :=
| ConstructorThrew (e : Exn) (app : Application) (tr : list Event)
| ConstructorReturned (preloads : list (ref * Settlement)) (app : Application)
    (tr : list Event).

Definition constructor (search : string) (cfg : Config) (reg : Registry) : Constructed :=
  match queryPlayOptions search (connect_and_listen cfg) with
  | Throw e => ConstructorThrew e (connect_and_listen cfg) []
  | Normal app =>
      let app := container_fetch "playOptions" FetchPlayOptions app in
      match setupPlugins_call reg app with
      | (ReturnsUndefined, app', tr) =>
          ConstructorThrew
            (TypeError "Cannot read properties of undefined (reading 'catch')") app' tr
      | (Throws e, app', tr) => ConstructorThrew e app' tr
      | (ReturnsPromise preloads, app', tr) =>
          ConstructorReturned preloads (register_hints cfg app') tr
      end
  end.

(** The chain of lines 137-149 on a promise of [setupPlugins()] that ends as
    [s]: both [catch] handlers log, the last callback sends [loaded] and
    sets [ready]. The result is how the chain's last promise ends. *)
Definition startupChain (s : Settlement) (app : Application) : Settlement * Application :=
  match s with
  | Pends => (Pends, app)
  | _ =>
      let app1 := match s with
                  | Rejects e => Debugger_log "warn" (LExn e) app
                  | _ => app
                  end in
      let app2 := match validateListeners app1 with
                  | Throw e => Debugger_log "warn" (LExn e) app1
                  | Normal _ => app1
                  end in
      (Fulfils, assign ready (JBool true) (container_send "loaded" JUndefined app2))
  end.

(** A whole startup. *)
Inductive Startup :=
| StartupThrew (e : Exn) (run : Run)
| StartupChain (s : Settlement) (run : Run).

(** [new Application(config)] and then the asynchronous rest: [between]
    is what the host program does once the constructor has returned
    (attaching listeners, say), [sched] the order in which the preload
    promises settle. *)
Definition startup (search : string) (cfg : Config) (sched : list nat)
    (between : Application → Application) (reg : Registry) : Startup :=
  match constructor search cfg reg with
  | ConstructorThrew e app tr =>
      StartupThrew e {| run_reg := reg; run_app := app; run_trace := tr |}
  | ConstructorReturned preloads app tr =>
      let r := setupPlugins_promise sched preloads
                 {| run_reg := reg; run_app := between app; run_trace := tr |} in
      let c := startupChain r.1 (run_app r.2) in
      StartupChain c.1
        {| run_reg := run_reg r.2; run_app := c.2; run_trace := run_trace r.2 |}
  end.

End Construction.

(** No [features] and no [hintPlayer]: [new Application()]. *)
Definition default_config : Config :=
  {| cfg_features := None; cfg_hintPlayer := None |}.

(** The handlers a freshly constructed application has registered with the
    container: those of lines 82-88, 100-107 and 153, in that order. *)
Definition constructed_handlers : list (string * Handler) :=
  handlers (container (register_hints default_config (connect_and_listen default_config))).

(** ** The languages plugin *)

(** The plugin of the languages module: [setup], [preload] and [teardown],
    mixed into the application. Its collaborators ([Languages], the
    options object, the loader, [Debug]) are seen through the calls made on
    them, recorded in order. *)
Module LanguagesPlugin.

Inductive Call :=
| NewLanguages
| OptionsAdd (option : string) (value : JsVal) (readOnly : bool)
| LoaderLoad (path : JsVal)
| SetConfig (content : JsVal)
| SetLanguage (lang : JsVal)
| DebugInfo (msg : string)
| Done
| Destroy.

(** What [this.languages] holds: nothing yet, the [Languages] instance, or
    [null]. *)
Inductive Field :=
| Undefined
| Instance
| Null.

(** The application as the plugin sees it: the field [languages], the
    values of [this.options], and the calls made so far. *)
Record App := {
  languages : Field;
  options : gmap string JsVal;
  calls : list Call
}.

(** The build flag [DEBUG], whether [include('springroll.Debug', false)]
    finds the module, and what the loader does with a path: it calls back
    with a result of that content, or never calls back. *)
Record Env := {
  DEBUG : bool;
  Debug : bool;
  loader : JsVal → option JsVal
}.

Definition call (c : Call) (app : App) : App :=
  {| languages := languages app; options := options app; calls := calls app ++ [c] |}.

(** [plugin.setup] *)
Definition setup (app : App) : App :=
  let app := {| languages := Instance; options := options app;
                calls := calls app ++ [NewLanguages] |} in
  let app := call (OptionsAdd "language" JNull true) app in
  call (OptionsAdd "languagesPath" JNull true) app.

(** The callback handed to [this.loader.load], bound to the application,
    called with a result whose [content] is [content]. A method call on a
    [languages] field that holds no instance throws. *)
Definition on_loaded (content : JsVal) (app : App) : Completion App :=
  match languages app with
  | Instance =>
      let app := call (SetConfig content) app in
      let lang := get "language" (options app) in
      let app := if truthy lang then call (SetLanguage lang) app else app in
      Normal (call Done app)
  | Undefined =>
      Throw (TypeError "Cannot read properties of undefined (reading 'setConfig')")
  | Null => Throw (TypeError "Cannot read properties of null (reading 'setConfig')")
  end.

(** [plugin.preload(done)], up to its return. *)
Definition preload (env : Env) (app : App) : App :=
  let config := get "languagesPath" (options app) in
  if truthy config then call (LoaderLoad config) app
  else
    let app :=
      if DEBUG env && Debug env
      then call (DebugInfo "Application option 'languagesPath' is empty, set to automatically load languages configuration.") app
      else app in
    call Done app.

(** [plugin.teardown] *)
Definition teardown (app : App) : App :=
  let app := match languages app with
             | Instance => call Destroy app
             | _ => app
             end in
  {| languages := Null; options := options app; calls := calls app |}.

(** [plugin.preload(done)] and, when a load was started and the loader
    calls back, the callback; [between] is what happens to the application
    while the file loads. [None] when the loader never calls back. *)
Definition preload_to_end (env : Env) (between : App → App) (app : App)
    : option (Completion App) :=
  let config := get "languagesPath" (options app) in
  if truthy config
  then match loader env config with
       | Some content => Some (on_loaded content (between (preload env app)))
       | None => None
       end
  else Some (Normal (preload env app)).

End LanguagesPlugin.

(** ** What the specification says about listeners *)

(** The channels that must have a listener: [pause] always, and the channel
    of every enabled feature of [featureToStateMap]. *)
Definition required (app : Application) (c : Channel) : Prop :=
  c = pause ∨ ∃ f, (f, c) ∈ featureToStateMap ∧ truthy (get f (features app)) = true.

(** A required channel with no listener. *)
Definition unheard (app : Application) (c : Channel) : Prop :=
  required app c ∧ hasListeners (state app c) = false.

(** The text [t] contains [s]. *)
Definition contains (s t : string) : Prop :=
  ∃ before after, t = before +:+ s +:+ after.

(** The character [c] occurs in [s]. *)
Fixpoint occurs (c : ascii) (s : string) : bool :=
  match s with
  | EmptyString => false
  | String d s' => Ascii.eqb d c || occurs c s'
  end.

(** The value of the query parameter [name] as the specification's words
    take it: the query string without its leading ['?'] is a list of
    [name=value] pairs separated by ['&'], and the value of the first pair
    of that name is everything after its first ['=']. *)
Definition parameter_value (name search : string) : option string :=
  let query := default search (strip_prefix "?" search) in
  head (omap (strip_prefix (name +:+ "=")) (split "&" query)).

(** A startup fails when the constructor throws or when the last promise of
    its chain rejects. *)
Definition startup_fails (s : Startup) : Prop :=
  match s with
  | StartupThrew _ _ => True
  | StartupChain (Rejects _) _ => True
  | StartupChain _ _ => False
  end.

(** ** What the specification says about the lifecycle *)

(** The [preload] hook of [p] exists and returns, whatever the application
    it is called with, a promise that ends as [s]. *)
Definition preload_ends (p : Plugin) (s : Settlement) : Prop :=
  ∃ hook, preload p = Some hook ∧ ∀ app, (hook app).2 = PreloadReturns s.

(** The event of a preload promise settling. *)
Definition settled_event (p : ref * Settlement) : Event :=
  PreloadSettled p.1 (match p.2 with Fulfils => true | _ => false end).

(** An [init] or [start] hook that exists and returns for every
    application, and one that exists and throws [e] for every
    application. *)
Definition hook_returns (hk : option (Application → Application * option Exn)) : Prop :=
  ∃ h, hk = Some h ∧ ∀ app, (h app).2 = None.

Definition hook_throws (hk : option (Application → Application * option Exn))
    (e : Exn) : Prop :=
  ∃ h, hk = Some h ∧ ∀ app, (h app).2 = Some e.


(** ** Example inputs *)

(** Built-ins for the examples: a decoder that changes nothing, a parser
    that knows the empty object only, and hint players whose [play()] finds
    no hint and says so in the log. *)
Definition example_externals (fires : bool) : Externals :=
  {| same_value_fires := fires;
     decodeURIComponent := λ s, Normal s;
     JSON_parse := λ s, if String.eqb s "{}" then Normal (JObj ∅)
                        else Throw {| exn_name := "SyntaxError";
                                      message := "Unexpected token" |} ;
     play := λ _ app, Debugger_log "warn" (LStr "No hints to play") app |}.

(** Features [{sound: true}] and features [{vo: true}], each with the
    default hint player. *)
Definition sound_only : Config :=
  {| cfg_features := Some {["sound" := JBool true]}; cfg_hintPlayer := None |}.

Definition vo_only : Config :=
  {| cfg_features := Some {["vo" := JBool true]}; cfg_hintPlayer := None |}.

(** Hooks: a preload whose promise fulfils, one whose promise rejects, one
    that throws before returning a promise, one whose promise never settles;
    an [init] or [start] that does nothing, one that attaches listener 7 to
    [pause], one that throws. *)
Definition resolving (app : Application) : Application * PreloadResult :=
  (app, PreloadReturns Fulfils).

Definition rejecting (e : Exn) (app : Application) : Application * PreloadResult :=
  (app, PreloadReturns (Rejects e)).

Definition throwing (e : Exn) (app : Application) : Application * PreloadResult :=
  (app, PreloadThrows e).

Definition hanging (app : Application) : Application * PreloadResult :=
  (app, PreloadReturns Pends).

Definition quiet (app : Application) : Application * option Exn := (app, None).

Definition listen_to_pause (app : Application) : Application * option Exn :=
  (with_state (λ st, <[pause := on 7 (st pause)]> st) app, None).

Definition failing (e : Exn) (app : Application) : Application * option Exn :=
  (app, Some e).

(** Descriptors: with no hook at all, with all three hooks, with one hook
    missing, and with a hook that misbehaves. *)
Definition bare (nm : string) : Plugin :=
  {| name := nm; preload := None; init := None; start := None; preloadFailed := false |}.

Definition full (nm : string) : Plugin :=
  {| name := nm; preload := Some resolving; init := Some quiet; start := Some quiet;
     preloadFailed := false |}.

Definition without_preload (nm : string) : Plugin :=
  {| name := nm; preload := None; init := Some quiet; start := Some quiet;
     preloadFailed := false |}.

Definition without_init (nm : string) : Plugin :=
  {| name := nm; preload := Some resolving; init := None; start := Some quiet;
     preloadFailed := false |}.

Definition without_start (nm : string) : Plugin :=
  {| name := nm; preload := Some resolving; init := Some quiet; start := None;
     preloadFailed := false |}.

Definition failing_preload (nm : string) : Plugin :=
  {| name := nm; preload := Some (rejecting (Error "no network"));
     init := Some quiet; start := Some quiet; preloadFailed := false |}.

Definition throwing_preload (nm : string) : Plugin :=
  {| name := nm; preload := Some (throwing (Error "preload threw"));
     init := Some quiet; start := Some quiet; preloadFailed := false |}.

Definition hanging_preload (nm : string) : Plugin :=
  {| name := nm; preload := Some hanging; init := Some quiet; start := Some quiet;
     preloadFailed := false |}.

Definition pause_listener (nm : string) : Plugin :=
  {| name := nm; preload := Some resolving; init := Some listen_to_pause;
     start := Some quiet; preloadFailed := false |}.

Definition throwing_init (nm : string) : Plugin :=
  {| name := nm; preload := Some resolving; init := Some (failing (Error "init threw"));
     start := Some quiet; preloadFailed := false |}.

(** Registries: [uses(p)] on an empty list, the descriptor being object 0;
    [uses(first); uses(second)], the descriptors being objects 0 and 1;
    three descriptors, the second with a preload that rejects. *)
Definition one_plugin (p : Plugin) : Registry :=
  uses 0 (no_plugins (λ _, p)).

Definition two_plugins (first second : Plugin) : Registry :=
  uses 1 (uses 0 (no_plugins (λ r, match r with 0 => first | _ => second end))).

Definition three_plugins : Registry :=
  uses 2 (uses 1 (uses 0 (no_plugins
    (λ r, match r with 0 => full "a" | 1 => failing_preload "b" | _ => full "c" end)))).

(** The application a startup leaves. *)
Definition started (s : Startup) : Application :=
  match s with
  | StartupThrew _ run => run_app run
  | StartupChain _ run => run_app run
  end.

(** Startups, each from an empty query string and with nothing done by the
    host program after the constructor: with no plugin; with features
    [{sound: true}] and no plugin; with one plugin whose [preload] throws;
    with one plugin whose preload promise never settles. *)
Definition plain_startup (fires : bool) : Startup :=
  @startup (example_externals fires) "" default_config [] id (no_plugins (λ _, bare "")).

Definition sound_only_startup : Startup :=
  @startup (example_externals false) "" sound_only [] id (no_plugins (λ _, bare "")).

Definition throwing_startup : Startup :=
  @startup (example_externals false) "" default_config [] id
    (one_plugin (throwing_preload "thrower")).

Definition hanging_startup : Startup :=
  @startup (example_externals false) "" default_config [] id
    (one_plugin (hanging_preload "hanger")).

(** The application started with no plugin, after it received
    [soundVolume] with 0.8. *)
Definition app_at_08 (fires : bool) : Application :=
  @receive (example_externals fires) "soundVolume" (JNum 0.8)
    (started (plain_startup fires)).

(** More example inputs: built-ins whose decoder rejects a lone ['%'], a
    descriptor whose [start] throws, an application in which [pause] has a
    listener, and an environment and an application for the languages
    plugin. *)
Definition picky_externals : Externals :=
  {| same_value_fires := false;
     decodeURIComponent := λ s, if String.eqb s "%"
                                then Throw {| exn_name := "URIError";
                                              message := "URI malformed" |}
                                else Normal s;
     JSON_parse := λ s, if String.eqb s "{}" then Normal (JObj ∅)
                        else Throw {| exn_name := "SyntaxError";
                                      message := "Unexpected token" |} ;
     play := λ _ app, app |}.

Definition throwing_start (nm : string) : Plugin :=
  {| name := nm; preload := Some resolving; init := Some quiet;
     start := Some (failing (Error "start threw")); preloadFailed := false |}.

(** Built-ins that decode nothing and parse the number [5] and the empty
    object. *)
Definition digit_externals : Externals :=
  {| same_value_fires := false;
     decodeURIComponent := λ s, Normal s;
     JSON_parse := λ s, if String.eqb s "5" then Normal (JNum 5)
                        else if String.eqb s "{}" then Normal (JObj ∅)
                        else Throw {| exn_name := "SyntaxError";
                                      message := "Unexpected token" |};
     play := λ _ app, app |}.

Definition heard_app : Application :=
  (listen_to_pause (connect_and_listen default_config)).1.

Definition languages_env : LanguagesPlugin.Env :=
  {| LanguagesPlugin.DEBUG := true; LanguagesPlugin.Debug := true;
     LanguagesPlugin.loader := λ _, Some (JStr "config") |}.

Definition languages_app (path : JsVal) : LanguagesPlugin.App :=
  LanguagesPlugin.setup
    {| LanguagesPlugin.languages := LanguagesPlugin.Undefined;
       LanguagesPlugin.options := {["languagesPath" := path; "language" := JStr "fr"]};
       LanguagesPlugin.calls := [] |}.

(** The three descriptors once the second's preload promise has rejected. *)
Definition flagged_run : Run :=
  settle (1, Rejects (Error "no network"))
    {| run_reg := three_plugins; run_app := blank ∅; run_trace := [] |}.

(** * Properties *)

(** Membership in a list that is written out. *)
Ltac in_list := repeat (apply elem_of_cons; first [by left | right]).

Section Proofs.
Context `{Externals}.

(** ** Values *)

Lemma float_eqb_zero_sym (x : float) : PrimFloat.eqb 0 x = PrimFloat.eqb x 0.
Proof.
  rewrite !FloatAxioms.eqb_spec.
  change (Prim2SF 0) with (S754_zero false).
  destruct (Prim2SF x) as [s|s| |s m e]; simpl; try destruct s; reflexivity.
Qed.

Lemma truthy_not_zero (v : JsVal) :
  truthy v = true → strict_eq v (JNum 0) = false ∧ strict_eq (JNum 0) v = false.
Proof.
  destruct v as [| |b|x|s|fs]; simpl; try done.
  rewrite float_eqb_zero_sym.
  destruct (PrimFloat.eqb x 0); simpl; done.
Qed.

Lemma js_or_truthy (a b : JsVal) : truthy a = true → js_or a b = a.
Proof. unfold js_or. by intros ->. Qed.

Lemma js_or_falsy (a b : JsVal) : truthy a = false → js_or a b = b.
Proof. unfold js_or. by intros ->. Qed.

(** ** Assignments and handlers *)

Lemma set_value_changed (v : JsVal) (p : Property) :
  strict_eq (value p) v = false →
  set_value v p = ({| value := v; _previousValue := value p; listeners := listeners p |},
                   (λ l, (l, v)) <$> listeners p).
Proof. unfold set_value. by intros ->. Qed.

Lemma set_value_listeners (v : JsVal) (p : Property) :
  listeners (set_value v p).1 = listeners p.
Proof. unfold set_value. by case_match. Qed.

Lemma state_assign (c c' : Channel) (v : JsVal) (app : Application) :
  state (assign c v app) c' =
  if decide (c = c') then (set_value v (state app c)).1 else state app c'.
Proof.
  unfold assign. destruct (set_value v (state app c)) as [p ns]. simpl.
  case_decide as Hc.
  - subst. apply fn_lookup_insert.
  - by apply fn_lookup_insert_ne.
Qed.

Lemma container_assign (c : Channel) (v : JsVal) (app : Application) :
  container (assign c v app) = container app.
Proof. unfold assign. by destruct (set_value v (state app c)). Qed.

Lemma container_legacyMute (c : Channel) (data : JsVal) (app : Application) :
  container (legacyMute c data app) = container app.
Proof. unfold legacyMute. by rewrite container_assign. Qed.

Lemma container_run_handler (h : Handler) (data : JsVal) (app : Application) :
  h ≠ PlayHelp → container (run_handler h data app) = container app.
Proof.
  destruct h as [c|c|]; simpl; intros Hh.
  - apply container_assign.
  - apply container_legacyMute.
  - done.
Qed.

Lemma foldl_handlers_filter (ev : string) (data : JsVal)
    (hs : list (string * Handler)) (app : Application) :
  foldl (λ a eh, if String.eqb eh.1 ev then run_handler eh.2 data a else a) app hs =
  foldl (λ a eh, run_handler eh.2 data a) app (filter (λ eh, eh.1 = ev) hs).
Proof.
  revert app. induction hs as [|[e h] hs IH]; intros app; [done|].
  simpl. rewrite filter_cons. simpl.
  destruct (String.eqb_spec e ev) as [->|Hne].
  - rewrite decide_True by done. simpl. apply IH.
  - rewrite decide_False by done. apply IH.
Qed.

(** Delivering an event for which one handler is registered runs it. *)
Lemma receive_single (ev : string) (h : Handler) (data : JsVal) (app : Application) :
  filter (λ eh, eh.1 = ev) (handlers (container app)) = [(ev, h)] →
  receive ev data app = run_handler h data app.
Proof. intros Hf. unfold receive. by rewrite foldl_handlers_filter, Hf. Qed.

(** ** Legacy mute events *)

(** Each legacy mute event has one handler among those the constructor
    registers: the mute listener of its volume property. *)
Lemma legacy_handler_registered (mute : string) (c : Channel) :
  (mute, c) ∈ legacyListeners →
  filter (λ eh, eh.1 = mute) constructed_handlers = [(mute, LegacyMute c)].
Proof.
  unfold legacyListeners. intros Hin.
  repeat (apply elem_of_cons in Hin as [[= -> ->]|Hin]; [by vm_compute|]).
  by apply elem_of_nil in Hin.
Qed.

(** The volume cell after a mute event with a truthy payload. *)
Lemma legacyMute_on (c : Channel) (data : JsVal) (app : Application) :
  truthy data = true →
  truthy (value (state app c)) = true →
  state (legacyMute c data app) c =
  {| value := JNum 0; _previousValue := value (state app c);
     listeners := listeners (state app c) |}.
Proof.
  intros Hd Hv. unfold legacyMute. rewrite Hd, state_assign, decide_True by done.
  simpl. rewrite fn_lookup_insert.
  rewrite set_value_changed; [done|]. simpl. by apply truthy_not_zero.
Qed.

(** The volume cell after a mute event with a falsy payload, when the cell
    holds 0. *)
Lemma legacyMute_off (c : Channel) (data : JsVal) (app : Application) :
  truthy data = false →
  value (state app c) = JNum 0 →
  value (state (legacyMute c data app) c) = js_or (_previousValue (state app c)) (JNum 1).
Proof.
  intros Hd Hv. unfold legacyMute. rewrite Hd, state_assign, decide_True by done.
  simpl. rewrite fn_lookup_insert. unfold set_value. simpl. rewrite Hv.
  case_match eqn:Hs; simpl; [|done].
  apply andb_prop in Hs as [Hs _].
  unfold js_or in *. destruct (truthy (_previousValue (state app c))) eqn:Ht.
  - apply truthy_not_zero in Ht as [_ Ht]. congruence.
  - vm_compute in Hs. done.
Qed.

(** C5. Legacy mute round trip: a volume property holding a non-zero value
    [v] (0.8, say) is set to 0 by its mute event with payload [true], and the
    same event with payload [false] right after restores [v]; this for each
    of [soundMuted], [musicMuted], [voMuted] and [sfxMuted] with its volume
    property, whatever previous value was recorded before. *)
Theorem legacy_mute_round_trip (mute : string) (c : Channel) (v : JsVal)
    (app : Application) :
  (mute, c) ∈ legacyListeners →
  handlers (container app) = constructed_handlers →
  value (state app c) = v →
  truthy v = true →
  let muted := receive mute (JBool true) app in
  let restored := receive mute (JBool false) muted in
  value (state muted c) = JNum 0 ∧ value (state restored c) = v.
Proof.
  intros Hin Hh Hv Ht. simpl.
  pose proof (legacy_handler_registered mute c Hin) as Hf.
  rewrite (receive_single mute (LegacyMute c)) by (by rewrite Hh).
  simpl. subst v.
  pose proof (legacyMute_on c (JBool true) app eq_refl Ht) as Hon.
  split; [by rewrite Hon|].
  rewrite (receive_single mute (LegacyMute c))
    by (by rewrite container_legacyMute, Hh).
  simpl. rewrite legacyMute_off; [|done|by rewrite Hon].
  rewrite Hon. simpl. by apply js_or_truthy.
Qed.

(** The volume cell after a mute event with a truthy payload, when the cell
    already holds 0. *)
Lemma legacyMute_on_zero (c : Channel) (data : JsVal) (app : Application) :
  truthy data = true →
  value (state app c) = JNum 0 →
  value (state (legacyMute c data app) c) = JNum 0 ∧
  _previousValue (state (legacyMute c data app) c) = JNum 0.
Proof.
  intros Hd Hv. unfold legacyMute. rewrite Hd, state_assign, decide_True by done.
  simpl. rewrite fn_lookup_insert. unfold set_value. simpl. rewrite Hv.
  by case_match.
Qed.

(** C10. Double mute: with a volume property holding a non-zero value [v],
    two mute events with payload [true] in a row leave 0 as the stored
    previous value (the first had stored [v]), so the mute event with
    payload [false] that follows sets the property to the default 1, and
    not to [v] unless [v] is 1. *)
Theorem double_mute_forgets_volume (mute : string) (c : Channel) (v : JsVal)
    (app : Application) :
  (mute, c) ∈ legacyListeners →
  handlers (container app) = constructed_handlers →
  value (state app c) = v →
  truthy v = true →
  let once := receive mute (JBool true) app in
  let twice := receive mute (JBool true) once in
  let after := receive mute (JBool false) twice in
  _previousValue (state once c) = v ∧
  _previousValue (state twice c) = JNum 0 ∧
  value (state after c) = JNum 1 ∧
  (v ≠ JNum 1 → value (state after c) ≠ v).
Proof.
  intros Hin Hh Hv Ht. simpl.
  pose proof (legacy_handler_registered mute c Hin) as Hf.
  rewrite !(receive_single mute (LegacyMute c))
    by (rewrite ?container_run_handler by done; by rewrite Hh).
  simpl. subst v.
  pose proof (legacyMute_on c (JBool true) app eq_refl Ht) as Hon.
  destruct (legacyMute_on_zero c (JBool true) (legacyMute c (JBool true) app) eq_refl)
    as [Hv2 Hp2]; [by rewrite Hon|].
  assert (Hafter : value (state (legacyMute c (JBool false)
                     (legacyMute c (JBool true) (legacyMute c (JBool true) app))) c)
                   = JNum 1).
  { rewrite legacyMute_off by done. rewrite Hp2. by apply js_or_falsy. }
  split_and!; [by rewrite Hon|done|done|].
  intros Hne. rewrite Hafter. congruence.
Qed.

(** ** The registry *)


(** C8. [getPlugin(name)] searches the registered descriptors from the
    first on and returns the first whose name equals the argument: the one
    at some position [i] with that name, no earlier position holding a
    descriptor of that name; it returns [undefined] ([None]) exactly when no
    registered descriptor has the name. *)
Theorem getPlugin_first_match (nm : string) (reg : Registry) :
  match getPlugin nm reg with
  | Some r =>
      ∃ i, _plugins reg !! i = Some r ∧ name (objects reg r) = nm ∧
           ∀ j r', j < i → _plugins reg !! j = Some r' → name (objects reg r') ≠ nm
  | None => ∀ r, r ∈ _plugins reg → name (objects reg r) ≠ nm
  end.
Proof.
  unfold getPlugin. induction (_plugins reg) as [|r rs IH]; simpl.
  - intros r Hr. by apply elem_of_nil in Hr.
  - destruct (String.eqb_spec (name (objects reg r)) nm) as [Heq|Hne].
    + exists 0. split_and!; [done|done|]. intros j r' Hj. lia.
    + destruct (find _ rs) as [r0|].
      * destruct IH as (i & Hi & Hnm & Hfirst).
        exists (S i). split_and!; [done|done|].
        intros [|j] r' Hj Hlk; simpl in Hlk.
        -- by injection Hlk as <-.
        -- apply (Hfirst j); [lia|done].
      * intros r' [->|Hin]%elem_of_cons; [done|by apply IH].
Qed.

(** ** Feature flags *)

(** C6. Whatever the caller passes as [features], if [vo], [music] or [sfx]
    is true (truthy) in the feature set the constructor builds, then [sound]
    is [true] in it, whether the caller left [sound] out or set it false. *)
Theorem sound_forced_by_channels (cfg : Config) :
  let fs := features (connect_and_listen cfg) in
  truthy (get "vo" fs) = true ∨ truthy (get "music" fs) = true ∨
    truthy (get "sfx" fs) = true →
  get "sound" fs = JBool true.
Proof.
  change (features (connect_and_listen cfg)) with (make_features (cfg_features cfg)).
  unfold make_features. simpl.
  set (fs := Object_assign default_features (default ∅ (cfg_features cfg))).
  destruct (truthy (get "vo" fs) || truthy (get "music" fs) || truthy (get "sfx" fs))
    eqn:Hany.
  - intros _. unfold get. by rewrite lookup_insert_eq.
  - apply orb_false_elim in Hany as [[Hvo Hmusic]%orb_false_elim Hsfx].
    intros [Ht|[Ht|Ht]]; congruence.
Qed.

(** ** Play options *)

Lemma string_app_cons (x : ascii) (a b : string) :
  String x a +:+ b = String x (a +:+ b).
Proof. reflexivity. Qed.

Lemma string_app_nil_r (a : string) : a +:+ "" = a.
Proof. induction a as [|x a IH]; [done|]. by rewrite string_app_cons, IH. Qed.

Lemma string_app_assoc (a b c : string) : (a +:+ b) +:+ c = a +:+ (b +:+ c).
Proof. induction a as [|x a IH]; [done|]. by rewrite !string_app_cons, IH. Qed.

Lemma strip_prefix_Some (pat s rest : string) :
  strip_prefix pat s = Some rest ↔ s = pat +:+ rest.
Proof.
  revert s. induction pat as [|a pat IH]; intros s; simpl.
  - split; [by intros [= ->]|by intros ->].
  - rewrite string_app_cons. destruct s as [|b s]; [done|].
    destruct (Ascii.eqb_spec a b) as [->|Hne].
    + rewrite IH. split; [by intros ->|by intros [= ->]].
    + split; [done|]. by intros [= ? ?].
Qed.

Lemma after_first_unfold (pat s : string) :
  after_first pat s =
  match strip_prefix pat s with
  | Some rest => Some rest
  | None => match s with
            | EmptyString => None
            | String _ s' => after_first pat s'
            end
  end.
Proof. by destruct s. Qed.

Lemma after_first_Some (pat s rest : string) :
  after_first pat s = Some rest → ∃ before, s = before +:+ pat +:+ rest.
Proof.
  induction s as [|b s IH]; rewrite after_first_unfold.
  - destruct (strip_prefix pat "") eqn:Hs; [|done].
    intros [= ->]. apply strip_prefix_Some in Hs. by exists "".
  - destruct (strip_prefix pat (String b s)) eqn:Hs.
    + intros [= ->]. apply strip_prefix_Some in Hs. by exists "".
    + intros Hr. destruct (IH Hr) as [before ->]. by exists (String b before).
Qed.

Lemma after_first_contains (pat s : string) :
  contains pat s → is_Some (after_first pat s).
Proof.
  intros (before & rest & ->). induction before as [|b before IH].
  - rewrite after_first_unfold.
    replace (strip_prefix pat ("" +:+ pat +:+ rest)) with (Some rest); [done|].
    symmetry. by apply strip_prefix_Some.
  - rewrite after_first_unfold. by destruct (strip_prefix _ _).
Qed.

(** The regular expression matches exactly the query strings that contain
    [playOptions=]. *)
Lemma exec_playOptions_matches (search : string) :
  is_Some (exec_playOptions search) ↔ contains "playOptions=" search.
Proof.
  unfold exec_playOptions. rewrite fmap_is_Some. split.
  - intros [rest Hrest]. apply after_first_Some in Hrest as [before ->].
    by exists before, rest.
  - apply after_first_contains.
Qed.

Lemma split_nonempty (sep : ascii) (s : string) : split sep s ≠ [].
Proof.
  induction s as [|c s IH]; simpl; [done|].
  destruct (Ascii.eqb c sep); [done|]. by destruct (split sep s).
Qed.

Lemma value_run_prefix (s : string) : ∃ tail, s = value_run s +:+ tail.
Proof.
  induction s as [|c s [tail IH]]; simpl; [by exists ""|].
  destruct (Ascii.eqb c "&" || Ascii.eqb c "$"); [by eexists|].
  exists tail. by rewrite string_app_cons, <- IH.
Qed.

Lemma split_head_prefix (sep : ascii) (s : string) :
  ∃ piece pieces tail, split sep s = piece :: pieces ∧ s = piece +:+ tail.
Proof.
  induction s as [|c s (piece & pieces & tail & Hsplit & IH)]; simpl.
  - by exists "", [], "".
  - destruct (Ascii.eqb c sep); [by eexists "", _, _|].
    rewrite Hsplit. exists (String c piece), pieces, tail.
    by rewrite string_app_cons, <- IH.
Qed.

(** What the constructor hands to [decodeURIComponent]: the second piece of
    the match always exists, and it is text that follows the first
    [playOptions=] of the query string. *)
Lemma exec_playOptions_raw (search : string) :
  contains "playOptions=" search →
  ∃ matchedToken raw before tail,
    exec_playOptions search = Some matchedToken ∧
    split "=" matchedToken !! 1 = Some raw ∧
    search = before +:+ "playOptions=" +:+ raw +:+ tail.
Proof.
  intros Hc. apply after_first_contains in Hc as [rest Hrest].
  unfold exec_playOptions. rewrite Hrest. simpl.
  apply after_first_Some in Hrest as [before ->].
  destruct (value_run_prefix rest) as [tail1 Hrun].
  destruct (split_head_prefix "=" (value_run rest))
    as (raw & pieces & tail2 & Hsplit & Hraw).
  exists ("playOptions=" +:+ value_run rest), raw, before, (tail2 +:+ tail1).
  split_and!; [done| |].
  - change ("playOptions=" +:+ value_run rest)
      with (String "p" (String "l" (String "a" (String "y" (String "O" (String "p"
             (String "t" (String "i" (String "o" (String "n" (String "s" (String "="
             (value_run rest))))))))))))).
    simpl. by rewrite Hsplit.
  - rewrite Hrun at 1. rewrite Hraw at 1. by rewrite !string_app_assoc.
Qed.

(** The first occurrence: no occurrence of [pat] starts further left. *)
Lemma after_first_least (pat s rest : string) :
  after_first pat s = Some rest →
  ∃ before,
    s = before +:+ pat +:+ rest ∧
    ∀ b a, s = b +:+ pat +:+ a → String.length before ≤ String.length b.
Proof.
  revert rest. induction s as [|c s IH]; intros rest; rewrite after_first_unfold.
  - destruct (strip_prefix pat "") eqn:Hs; [|done].
    intros [= ->]. apply strip_prefix_Some in Hs. exists "". split; [done|].
    intros b a _. simpl. lia.
  - destruct (strip_prefix pat (String c s)) eqn:Hs.
    + intros [= ->]. apply strip_prefix_Some in Hs. exists "". split; [done|].
      intros b a _. simpl. lia.
    + intros Hr. destruct (IH rest Hr) as (before & Hs' & Hleast).
      exists (String c before). split; [by rewrite string_app_cons, <- Hs'|].
      intros [|d b] a Hba.
      * change (String c s = pat +:+ a) in Hba.
        apply strip_prefix_Some in Hba. by rewrite Hba in Hs.
      * rewrite string_app_cons in Hba. injection Hba as _ Hba.
        specialize (Hleast b a Hba). simpl. lia.
Qed.

(** The run of the regular expression holds no ['&'] and no ['$'], and
    stops at one of them or at the end. *)
Lemma value_run_cut (s : string) :
  ∃ tail,
    s = value_run s +:+ tail ∧
    occurs "&" (value_run s) = false ∧
    occurs "$" (value_run s) = false ∧
    (tail = "" ∨ ∃ t, tail = String "&" t ∨ tail = String "$" t).
Proof.
  induction s as [|c s (tail & IH & Hamp & Hdol & Htail)]; simpl.
  - exists "". by split_and!; [| | |left].
  - destruct (Ascii.eqb_spec c "&") as [->|Hne1].
    { exists (String "&" s). split_and!; [done|done|done|]. right. exists s. by left. }
    destruct (Ascii.eqb_spec c "$") as [->|Hne2].
    { exists (String "$" s). split_and!; [done|done|done|]. right. exists s. by right. }
    exists tail. simpl. split_and!; [by rewrite string_app_cons, <- IH| | |done].
    + rewrite Hamp. by destruct (Ascii.eqb_spec c "&").
    + rewrite Hdol. by destruct (Ascii.eqb_spec c "$").
Qed.

(** The first piece of a split holds no separator, holds no character
    that the text lacks, and stops at a separator or at the end. *)
Lemma split_head_cut (sep : ascii) (s : string) :
  ∃ piece pieces tail,
    split sep s = piece :: pieces ∧
    s = piece +:+ tail ∧
    occurs sep piece = false ∧
    (∀ c, occurs c s = false → occurs c piece = false) ∧
    (tail = "" ∨ ∃ t, tail = String sep t).
Proof.
  induction s as [|c s (piece & pieces & tail & Hsplit & IH & Hsep & Hinh & Htail)]; simpl.
  - exists "", [], "". by split_and!; [| | | |left].
  - destruct (Ascii.eqb_spec c sep) as [->|Hne].
    { exists "", (split sep s), (String sep s).
      split_and!; [done|done|done|done|]. right. by exists s. }
    rewrite Hsplit. exists (String c piece), pieces, tail.
    split_and!; [done|by rewrite string_app_cons, <- IH| | |done].
    + simpl. rewrite Hsep. by destruct (Ascii.eqb_spec c sep).
    + intros d. simpl. intros [Hd Hs]%orb_false_elim. by rewrite Hd, (Hinh d Hs).
Qed.

(** What the constructor hands to [decodeURIComponent], in full: the text
    that follows the first [playOptions=] of the query string, up to the
    first ['&'], ['$'] or ['='] or to the end. *)
Lemma exec_playOptions_cut (search : string) :
  contains "playOptions=" search →
  ∃ matchedToken raw before tail,
    exec_playOptions search = Some matchedToken ∧
    split "=" matchedToken !! 1 = Some raw ∧
    search = before +:+ "playOptions=" +:+ raw +:+ tail ∧
    (∀ b a, search = b +:+ "playOptions=" +:+ a →
            String.length before ≤ String.length b) ∧
    (∀ c, c ∈ ["&"%char; "$"%char; "="%char] → occurs c raw = false) ∧
    (tail = "" ∨ ∃ c t, c ∈ ["&"%char; "$"%char; "="%char] ∧ tail = String c t).
Proof.
  intros Hc. apply after_first_contains in Hc as [rest Hrest].
  unfold exec_playOptions. rewrite Hrest. simpl.
  apply after_first_least in Hrest as (before & -> & Hleast).
  destruct (value_run_cut rest) as (tail1 & Hrun & Hamp & Hdol & Htail1).
  destruct (split_head_cut "=" (value_run rest))
    as (raw & pieces & tail2 & Hsplit & Hraw & Heq & Hinh & Htail2).
  exists ("playOptions=" +:+ value_run rest), raw, before, (tail2 +:+ tail1).
  split_and!; [done| | |done| |].
  - change ("playOptions=" +:+ value_run rest)
      with (String "p" (String "l" (String "a" (String "y" (String "O" (String "p"
             (String "t" (String "i" (String "o" (String "n" (String "s" (String "="
             (value_run rest))))))))))))).
    simpl. by rewrite Hsplit.
  - rewrite Hrun at 1. rewrite Hraw at 1. by rewrite !string_app_assoc.
  - intros c Hin.
    apply elem_of_cons in Hin as [-> | Hin]; [by apply Hinh|].
    apply elem_of_cons in Hin as [-> | Hin]; [by apply Hinh|].
    apply elem_of_cons in Hin as [-> | Hin]; [done|].
    by apply elem_of_nil in Hin.
  - destruct Htail2 as [-> | [t ->]].
    + destruct Htail1 as [-> | [t [-> | ->]]]; [by left|right..].
      * exists "&"%char, t. split; [in_list|done].
      * exists "$"%char, t. split; [in_list|done].
    + right. exists "="%char, (t +:+ tail1). split; [in_list|done].
Qed.

(** C7. For every query string that contains the text [playOptions=], the
    constructor takes what follows its first occurrence, up to the first
    ['&'], ['$'] or ['='] or to the end ([raw]). When the URL-decoded form
    of that text is not valid JSON, it goes on: the parse failure is logged
    as a warning with the parser's message, no property is assigned, and
    [playOptions] still holds the empty object. *)
Theorem malformed_playOptions_keeps_default (search : string) (cfg : Config) :
  contains "playOptions=" search →
  ∃ matchedToken raw before tail,
    exec_playOptions search = Some matchedToken ∧
    split "=" matchedToken !! 1 = Some raw ∧
    search = before +:+ "playOptions=" +:+ raw +:+ tail ∧
    (∀ b a, search = b +:+ "playOptions=" +:+ a →
            String.length before ≤ String.length b) ∧
    (∀ c, c ∈ ["&"%char; "$"%char; "="%char] → occurs c raw = false) ∧
    (tail = "" ∨ ∃ c t, c ∈ ["&"%char; "$"%char; "="%char] ∧ tail = String c t) ∧
    ∀ rawValue e,
      decodeURIComponent raw = Normal rawValue →
      JSON_parse rawValue = Throw e →
      ∃ app,
        queryPlayOptions search (connect_and_listen cfg) = Normal app ∧
        debugLog app =
          [("warn",
            LStr ("Failed to parse playOptions from query string:" +:+ message e))] ∧
        state app = state (connect_and_listen cfg) ∧
        notified app = [] ∧
        state app playOptions = new_Property (JObj ∅).
Proof.
  intros Hc.
  destruct (exec_playOptions_cut search Hc)
    as (matchedToken & raw & before & tail & Hexec & Hraw & Hsearch & Hleast & Hfree & Htail).
  exists matchedToken, raw, before, tail. split_and!; [done..|].
  intros rawValue e Hdec Hparse.
  unfold queryPlayOptions. rewrite Hexec, Hraw. simpl. rewrite Hdec, Hparse.
  eexists. split; [done|]. done.
Qed.

(** ** Listener validation *)

Lemma contains_refl (s : string) : contains s s.
Proof. exists "", "". by rewrite string_app_nil_r. Qed.

Lemma contains_app_l (s t u : string) : contains s t → contains s (t +:+ u).
Proof.
  intros (a & b & ->). exists a, (b +:+ u). by rewrite !string_app_assoc.
Qed.

Lemma contains_app_r (s t u : string) : contains s t → contains s (u +:+ t).
Proof.
  intros (a & b & ->). exists (u +:+ a), b. by rewrite !string_app_assoc.
Qed.

(** [join] names every element. *)
Lemma contains_concat (sep s : string) (l : list string) :
  s ∈ l → contains s (String.concat sep l).
Proof.
  induction l as [|x l IH]; [by intros ?%elem_of_nil|].
  intros [->|Hin]%elem_of_cons.
  - destruct l as [|y l]; [apply contains_refl|].
    change (String.concat sep (x :: y :: l))
      with (x +:+ sep +:+ String.concat sep (y :: l)).
    apply contains_app_l, contains_refl.
  - destruct l as [|y l]; [by apply elem_of_nil in Hin|].
    change (String.concat sep (x :: y :: l))
      with (x +:+ sep +:+ String.concat sep (y :: l)).
    by apply contains_app_r, contains_app_r, IH.
Qed.

Lemma foldl_push_filter {A B} (P : A → bool) (f : A → B) (l : list A) (acc : list B) :
  foldl (λ acc x, if P x then acc ++ [f x] else acc) acc l =
  acc ++ (f <$> filter (λ x, P x = true) l).
Proof.
  revert acc. induction l as [|x l IH]; intros acc; simpl.
  - by rewrite app_nil_r.
  - rewrite IH, filter_cons. destruct (P x) eqn:HP.
    + rewrite decide_True by done. by rewrite fmap_cons, <- app_assoc.
    + by rewrite decide_False by congruence.
Qed.

(** The array the validator collects holds the names of the unheard
    channels. *)
Lemma unheard_missing (app : Application) (c : Channel) :
  unheard app c → channel_name c ∈ missingListeners app.
Proof.
  intros [Hreq Hnone]. unfold missingListeners.
  rewrite (foldl_push_filter
             (λ ks, truthy (get ks.1 (features app)) && negb (hasListeners (state app ks.2)))
             (λ ks, channel_name ks.2)).
  simpl. destruct Hreq as [->|(f & Hin & Hon)].
  - rewrite Hnone. simpl. apply elem_of_app. right. by apply list_elem_of_singleton.
  - assert (Hc : channel_name c ∈
        (λ ks : string * Channel, channel_name ks.2) <$>
          filter (λ ks, truthy (get ks.1 (features app))
                        && negb (hasListeners (state app ks.2)) = true)
                 featureToStateMap).
    { apply list_elem_of_fmap. exists (f, c). split; [done|].
      apply list_elem_of_filter. split; [|done]. simpl. by rewrite Hon, Hnone. }
    destruct (negb (hasListeners (state app pause))); [|done].
    apply elem_of_app. by left.
Qed.

(** The required channels, written out: [pause], and for each enabled
    feature the channel [featureToStateMap] gives it. *)
Lemma required_channels (app : Application) (c : Channel) :
  required app c ↔
  c = pause ∨
  (c = captionsMuted ∧ truthy (get "captions" (features app)) = true) ∨
  (c = soundVolume ∧ truthy (get "sound" (features app)) = true) ∨
  (c = musicVolume ∧ truthy (get "music" (features app)) = true) ∨
  (c = voVolume ∧ truthy (get "vo" (features app)) = true) ∨
  (c = sfxVolume ∧ truthy (get "sfx" (features app)) = true).
Proof.
  unfold required, featureToStateMap. split.
  - intros [->|(f & Hin & Hon)]; [by left|]. right.
    repeat (apply elem_of_cons in Hin as [[= -> ->]|Hin]; [by eauto 10|]).
    by apply elem_of_nil in Hin.
  - intros [->|Hc]; [by left|]. right.
    destruct Hc as [[-> Hon]|[[-> Hon]|[[-> Hon]|[[-> Hon]|[-> Hon]]]]];
      eexists; (split; [|exact Hon]); in_list.
Qed.

(** Conversely, the array holds nothing but names of unheard channels. *)
Lemma missing_unheard (app : Application) (nm : string) :
  nm ∈ missingListeners app → ∃ c, nm = channel_name c ∧ unheard app c.
Proof.
  unfold missingListeners.
  rewrite (foldl_push_filter
             (λ ks, truthy (get ks.1 (features app)) && negb (hasListeners (state app ks.2)))
             (λ ks, channel_name ks.2)).
  simpl. intros Hin.
  assert (Hcases : nm ∈ (λ ks : string * Channel, channel_name ks.2) <$>
            filter (λ ks, truthy (get ks.1 (features app))
                          && negb (hasListeners (state app ks.2)) = true)
                   featureToStateMap
          ∨ (hasListeners (state app pause) = false ∧ nm = "pause")).
  { destruct (hasListeners (state app pause)); simpl in Hin; [by left|].
    apply elem_of_app in Hin as [Hin|Hin]; [by left|].
    right. by apply list_elem_of_singleton in Hin. }
  destruct Hcases as [Hfm|[Hnone ->]].
  - apply list_elem_of_fmap in Hfm as ([f c] & -> & Hf).
    apply list_elem_of_filter in Hf as [Hon Hf]. simpl in Hon.
    apply andb_prop in Hon as [Hon Hnone]. apply negb_true_iff in Hnone.
    exists c. split; [done|]. split; [|done]. right. by exists f.
  - exists pause. split; [done|]. split; [by left|done].
Qed.

Lemma strict_eq_bool (a : JsVal) (b : bool) : strict_eq a (JBool b) = true → a = JBool b.
Proof.
  destruct a as [| |x| | |]; simpl; try done.
  intros Hx. f_equal. by apply Bool.eqb_prop.
Qed.

Lemma value_assign_bool (c : Channel) (b : bool) (app : Application) :
  value (state (assign c (JBool b) app) c) = JBool b.
Proof.
  rewrite state_assign, decide_True by done. unfold set_value.
  case_match eqn:Hs; [|done]. simpl.
  apply andb_prop in Hs as [Hs _]. by apply strict_eq_bool.
Qed.

(** The end of the chain: [loaded] is the last message sent and [ready]
    holds [true]. *)
Lemma startupChain_ends (s : Settlement) (app : Application) :
  s ≠ Pends →
  (startupChain s app).1 = Fulfils ∧
  list.last (sent (container (startupChain s app).2)) = Some ("loaded", JUndefined) ∧
  value (state (startupChain s app).2 ready) = JBool true.
Proof.
  intros Hs. destruct s as [|e|]; [| |done]; simpl;
    (split_and!; [done| |apply value_assign_bool]);
    rewrite container_assign; simpl; apply last_snoc.
Qed.

(** C2, as the code has it. When some required channel has no listener at
    the time [validateListeners] runs, it throws one error whose message
    names every such channel; the startup chain catches that error and logs
    it as a warning, then sends [loaded] and sets [ready] to [true]: the
    startup does not fail. *)
Theorem missing_listeners_reported (c0 : Channel) (s : Settlement) (app : Application) :
  unheard app c0 →
  s ≠ Pends →
  ∃ msg,
    validateListeners app = Throw (Error msg) ∧
    (∀ c, unheard app c → contains (channel_name c) msg) ∧
    (startupChain s app).1 = Fulfils ∧
    ("warn", LExn (Error msg)) ∈ debugLog (startupChain s app).2 ∧
    list.last (sent (container (startupChain s app).2)) = Some ("loaded", JUndefined) ∧
    value (state (startupChain s app).2 ready) = JBool true.
Proof.
  intros H0 Hs.
  assert (Hne : bool_decide (length (missingListeners app) ≠ 0) = true).
  { apply bool_decide_eq_true. apply unheard_missing in H0.
    destruct (missingListeners app); [by apply elem_of_nil in H0|done]. }
  eexists. split; [|split].
  - unfold validateListeners. rewrite Hne. reflexivity.
  - intros c Hc. apply contains_app_r, contains_app_l, contains_concat.
    by apply unheard_missing.
  - destruct (startupChain_ends s app Hs) as (Hf & Hl & Hr).
    split_and!; [done| |done|done].
    destruct s as [|e|]; [| |done]; simpl; unfold validateListeners.
    + rewrite Hne. unfold assign. destruct (set_value _ _). simpl.
      apply elem_of_app. right. by apply list_elem_of_singleton.
    + change (missingListeners (Debugger_log "warn" (LExn e) app))
        with (missingListeners app).
      rewrite Hne. unfold assign. destruct (set_value _ _). simpl.
      apply elem_of_app. right. by apply list_elem_of_singleton.
Qed.

(** ** The plugin runner: settling the preload promises *)

Lemma pick_None {A} (k : nat) (l : list A) : pick k l = None → l = [].
Proof.
  unfold pick. destruct l as [|x l]; [done|].
  destruct ((x :: l) !! _) eqn:Hl; [done|]. intros _.
  apply lookup_ge_None in Hl.
  pose proof (Nat.mod_upper_bound k (length (x :: l))) as Hlt.
  simpl in *. lia.
Qed.

Lemma pick_Some {A} (k : nat) (l : list A) (x : A) (rest : list A) :
  pick k l = Some (x, rest) → l ≡ₚ x :: rest.
Proof.
  unfold pick. destruct (l !! _) eqn:Hl; [|done].
  intros [= <- <-]. by apply delete_Permutation.
Qed.

(** With fuel for each of them, the waiting promises all settle, once each,
    in some order. *)
Lemma settleAll_order (fuel : nat) (sched : list nat)
    (waiting : list (ref * Settlement)) (run : Run) :
  length waiting ≤ fuel →
  ∃ order, order ≡ₚ waiting ∧
           settleAll fuel sched waiting run = foldl (λ r p, settle p r) run order.
Proof.
  revert sched waiting run.
  induction fuel as [|fuel IH]; intros sched waiting run Hlen.
  - destruct waiting; [|simpl in Hlen; lia]. by exists [].
  - simpl. destruct (pick (hd 0 sched) waiting) as [[p rest]|] eqn:Hp.
    + apply pick_Some in Hp.
      destruct (IH (tl sched) rest (settle p run)) as (order & Hperm & Heq).
      { apply Permutation_length in Hp. simpl in Hp. lia. }
      exists (p :: order). split; [by rewrite Hp, Hperm|done].
    + apply pick_None in Hp as ->. by exists [].
Qed.

Lemma settle_fold_trace (order : list (ref * Settlement)) (run : Run) :
  Forall (λ p, settles p = true) order →
  run_trace (foldl (λ r p, settle p r) run order) =
  run_trace run ++ (settled_event <$> order).
Proof.
  intros Hall. revert run.
  induction Hall as [|[r s] order Hs _ IH]; intros run; simpl.
  - by rewrite app_nil_r.
  - rewrite IH. unfold settle, settled_event. simpl.
    destruct s; simpl; [| |done]; by rewrite <- app_assoc.
Qed.

Lemma settle_fold_plugins (order : list (ref * Settlement)) (run : Run) :
  _plugins (run_reg (foldl (λ r p, settle p r) run order)) = _plugins (run_reg run).
Proof.
  revert run. induction order as [|[r s] order IH]; intros run; simpl; [done|].
  rewrite IH. unfold settle. simpl. by destruct s.
Qed.

(** After the promises have settled, the flagged descriptors are those that
    were flagged before and those whose promise rejected. *)
Lemma settle_fold_failed (order : list (ref * Settlement)) (run : Run) (r : ref) :
  preloadFailed (objects (run_reg (foldl (λ r p, settle p r) run order)) r) = true ↔
  preloadFailed (objects (run_reg run) r) = true ∨ ∃ e, (r, Rejects e) ∈ order.
Proof.
  revert run. induction order as [|[r' s] order IH]; intros run; simpl.
  - split; [by left|]. intros [?|[e He]]; [done|]. by apply elem_of_nil in He.
  - rewrite IH. unfold settle at 1. simpl. split.
    + intros [Hf|[e He]].
      * destruct s as [|e|]; simpl in Hf; [by left| |by left].
        destruct (decide (r = r')) as [->|Hne].
        -- right. exists e. apply elem_of_cons. by left.
        -- left. by rewrite fn_lookup_alter_ne in Hf.
      * right. exists e. apply elem_of_cons. by right.
    + intros [Hf|[e He]].
      * left. destruct s as [|e|]; simpl; [done| |done].
        destruct (decide (r = r')) as [->|Hne].
        -- by rewrite fn_lookup_alter.
        -- by rewrite fn_lookup_alter_ne.
      * apply elem_of_cons in He as [[= <- <-]|He].
        -- left. simpl. by rewrite fn_lookup_alter.
        -- right. by exists e.
Qed.

Lemma filter_settles_all (l : list (ref * Settlement)) :
  forallb settles l = true → List.filter settles l = l.
Proof.
  induction l as [|p l IH]; simpl; [done|].
  intros [Hp Hl]%andb_prop. rewrite Hp. by rewrite IH.
Qed.

Lemma filter_settles_Forall (l : list (ref * Settlement)) :
  Forall (λ p, settles p = true) (List.filter settles l).
Proof.
  induction l as [|p l IH]; simpl; [done|].
  destruct (settles p) eqn:Hp; [by constructor|done].
Qed.

Lemma filter_settles_length (l : list (ref * Settlement)) :
  length (List.filter settles l) ≤ length l.
Proof. induction l as [|p l IH]; simpl; [done|]. destruct (settles p); simpl; lia. Qed.

(** ** The plugin runner: the loops *)

(** The preload loop calls the hooks of a prefix of the list, in order; when
    it reaches the end it has called them all and pushed one promise for
    each. *)
Lemma preloadLoop_trace (objs : ref → Plugin) (todo : list ref)
    (preloads : list (ref * Settlement)) (app : Application) (tr : list Event) :
  ∃ called,
    called `prefix_of` todo ∧
    (preloadLoop objs todo preloads app tr).2 = tr ++ (PreloadCalled <$> called) ∧
    ∀ ps, (preloadLoop objs todo preloads app tr).1.1 = LoopDone ps →
          called = todo ∧ ∃ new, ps = preloads ++ new ∧ new.*1 = todo.
Proof.
  revert preloads app tr.
  induction todo as [|r todo IH]; intros preloads app tr; simpl.
  - exists []. split_and!; [done|by rewrite app_nil_r|].
    intros ps [= <-]. split; [done|]. exists []. by rewrite app_nil_r.
  - destruct (preload (objs r)) as [hook|]; simpl.
    + destruct (hook app) as [app' [e|s]]; simpl.
      * exists [r]. split_and!; [by apply prefix_cons, prefix_nil|done|done].
      * destruct (IH (preloads ++ [(r, s)]) app' (tr ++ [PreloadCalled r]))
          as (called & Hpre & Htr & Hdone).
        exists (r :: called). split_and!.
        -- by apply prefix_cons.
        -- rewrite Htr. by rewrite <- app_assoc.
        -- intros ps Hps. destruct (Hdone ps Hps) as (-> & new & -> & Hnew).
           split; [done|]. exists ((r, s) :: new).
           split; [by rewrite <- app_assoc|]. by rewrite fmap_cons, Hnew.
    + exists []. split_and!; [apply prefix_nil|by rewrite app_nil_r|done].
Qed.

(** When every hook returns a promise, the loop runs to its end. *)
Lemma preloadLoop_returns (σ : ref → Settlement) (objs : ref → Plugin)
    (todo : list ref) (preloads : list (ref * Settlement)) (app : Application)
    (tr : list Event) :
  (∀ r, r ∈ todo → preload_ends (objs r) (σ r)) →
  ∃ app',
    preloadLoop objs todo preloads app tr =
    (LoopDone (preloads ++ ((λ r, (r, σ r)) <$> todo)), app',
     tr ++ (PreloadCalled <$> todo)).
Proof.
  revert preloads app tr.
  induction todo as [|r todo IH]; intros preloads app tr Hends; simpl.
  - exists app. by rewrite !app_nil_r.
  - destruct (Hends r) as (hook & -> & Hret); [by left|].
    specialize (Hret app). destruct (hook app) as [app' res]. simpl in Hret. subst res.
    destruct (IH (preloads ++ [(r, σ r)]) app' (tr ++ [PreloadCalled r])) as [app'' ->].
    { intros r' Hr'. apply Hends. by right. }
    exists app''. by rewrite <- !app_assoc.
Qed.

(** A hook loop calls the hooks of a prefix of the list, in order. *)
Lemma hookLoop_trace (hook : Plugin → option (Application → Application * option Exn))
    (ev : ref → Event) (objs : ref → Plugin) (todo : list ref)
    (app : Application) (tr : list Event) :
  ∃ called,
    called `prefix_of` todo ∧
    (hookLoop hook ev objs todo app tr).2 = tr ++ (ev <$> called) ∧
    ((hookLoop hook ev objs todo app tr).1.1 = HooksDone → called = todo).
Proof.
  revert app tr. induction todo as [|r todo IH]; intros app tr; simpl.
  - exists []. split_and!; [done|by rewrite app_nil_r|done].
  - destruct (hook (objs r)) as [h|]; simpl.
    + destruct (h app) as [app' [e|]]; simpl.
      * exists [r]. split_and!; [by apply prefix_cons, prefix_nil|done|done].
      * destruct (IH app' (tr ++ [ev r])) as (called & Hpre & Htr & Hdone).
        exists (r :: called). split_and!.
        -- by apply prefix_cons.
        -- rewrite Htr. by rewrite <- app_assoc.
        -- intros Hd. by rewrite Hdone.
    + exists []. split_and!; [apply prefix_nil|by rewrite app_nil_r|done].
Qed.

(** The callback after the barrier: the registry is filtered, then [init]
    hooks of a prefix of it are called, then, if that loop reached the end,
    [start] hooks of a prefix of it. *)
Lemma afterPreloads_trace (run : Run) :
  let plugins := filter (λ plugin, preloadFailed (objects (run_reg run) plugin) ≠ true)
                   (_plugins (run_reg run)) in
  ∃ inits starts,
    run_trace (afterPreloads run).2 =
      run_trace run ++ (InitCalled <$> inits) ++ (StartCalled <$> starts) ∧
    inits `prefix_of` plugins ∧ starts `prefix_of` plugins ∧
    (starts ≠ [] → inits = plugins) ∧
    (afterPreloads run).1 ≠ Pends ∧
    _plugins (run_reg (afterPreloads run).2) = plugins ∧
    objects (run_reg (afterPreloads run).2) = objects (run_reg run).
Proof.
  intros plugins. unfold afterPreloads. fold plugins.
  destruct (hookLoop_trace init InitCalled (objects (run_reg run)) plugins
              (run_app run) (run_trace run)) as (inits & Hi & Htr & Hdone).
  destruct (hookLoop init InitCalled (objects (run_reg run)) plugins
              (run_app run) (run_trace run)) as [[[| |e] app] tr]; simpl in *.
  - destruct (hookLoop_trace start StartCalled (objects (run_reg run)) plugins app tr)
      as (starts & Hs & Htr' & _).
    destruct (hookLoop start StartCalled (objects (run_reg run)) plugins app tr)
      as [[[| |e] app'] tr']; simpl in *; subst tr tr';
      exists inits, starts; rewrite <- app_assoc.
    all: try (split_and!; [done|done|done|by intros _; apply Hdone|done|done|done]).
  - exists inits, []. subst tr. rewrite fmap_nil, app_nil_r.
    split_and!; [done|done|apply prefix_nil|done|done|done|done].
  - exists inits, []. subst tr. rewrite fmap_nil, app_nil_r.
    split_and!; [done|done|apply prefix_nil|done|done|done|done].
Qed.

(** The promise of the callback does not pend. *)
Lemma afterPreloads_settles (run : Run) : (afterPreloads run).1 ≠ Pends.
Proof.
  by destruct (afterPreloads_trace run) as (? & ? & _ & _ & _ & _ & Hne & _).
Qed.

(** The promise of [setupPlugins()]: the preload promises that settle do so
    once each, in some order; hooks are called only when all of them have
    settled. *)
Lemma setupPlugins_promise_trace (sched : list nat)
    (preloads : list (ref * Settlement)) (run : Run) :
  ∃ order inits starts survivors,
    run_trace (setupPlugins_promise sched preloads run).2 =
      run_trace run ++ (settled_event <$> order) ++
      (InitCalled <$> inits) ++ (StartCalled <$> starts) ∧
    order ≡ₚ List.filter settles preloads ∧
    survivors `sublist_of` _plugins (run_reg run) ∧
    inits `prefix_of` survivors ∧ starts `prefix_of` survivors ∧
    (starts ≠ [] → inits = survivors) ∧
    (inits ≠ [] ∨ starts ≠ [] → order ≡ₚ preloads).
Proof.
  unfold setupPlugins_promise, barrier.
  destruct (settleAll_order (length preloads) sched (List.filter settles preloads) run)
    as (order & Hperm & ->); [apply filter_settles_length|].
  assert (Hall : Forall (λ p, settles p = true) order).
  { rewrite Hperm. apply filter_settles_Forall. }
  pose proof (settle_fold_trace order run Hall) as Htr.
  pose proof (settle_fold_plugins order run) as Hpl.
  set (run' := foldl (λ r p, settle p r) run order) in *.
  destruct (forallb settles preloads) eqn:Hpass.
  - destruct (afterPreloads_trace run')
      as (inits & starts & Htr' & Hi & Hs & Hfull & _ & _ & _).
    exists order, inits, starts,
      (filter (λ plugin, preloadFailed (objects (run_reg run') plugin) ≠ true)
         (_plugins (run_reg run'))).
    split_and!; [|done| |done|done|done|].
    + rewrite Htr', Htr. by rewrite <- app_assoc.
    + rewrite Hpl. apply sublist_filter.
    + intros _. by rewrite Hperm, filter_settles_all.
  - exists order, [], [], []. rewrite !fmap_nil, !app_nil_r.
    split_and!; [done|done|apply sublist_nil_l|done|done|done|].
    by intros [?|?].
Qed.

(** ** The plugin runner: the whole of [setupPlugins] *)


(** When every [preload] hook returns a promise that settles, the barrier
    opens: every promise settles once, the descriptors whose promise
    rejected are flagged and removed, and hooks are called on the rest. *)
Lemma setupPlugins_all_settle (σ : ref → Settlement) (sched : list nat)
    (between : Application → Application) (reg : Registry) (app : Application) :
  (∀ r, r ∈ _plugins reg → preload_ends (objects reg r) (σ r)) →
  (∀ r, σ r ≠ Pends) →
  ∃ order inits starts s,
    order ≡ₚ (λ r, (r, σ r)) <$> _plugins reg ∧
    (setupPlugins sched between reg app).1 = SetupPromise s ∧ s ≠ Pends ∧
    run_trace (setupPlugins sched between reg app).2 =
      (PreloadCalled <$> _plugins reg) ++ (settled_event <$> order) ++
      (InitCalled <$> inits) ++ (StartCalled <$> starts) ∧
    _plugins (run_reg (setupPlugins sched between reg app).2) =
      filter (λ r, preloadFailed
                     (objects (run_reg (setupPlugins sched between reg app).2) r) ≠ true)
             (_plugins reg) ∧
    (∀ r, preloadFailed (objects (run_reg (setupPlugins sched between reg app).2) r) = true ↔
          preloadFailed (objects reg r) = true ∨
          ∃ e, σ r = Rejects e ∧ r ∈ _plugins reg) ∧
    inits `prefix_of` _plugins (run_reg (setupPlugins sched between reg app).2) ∧
    starts `prefix_of` _plugins (run_reg (setupPlugins sched between reg app).2).
Proof.
  intros Hends Hsettle. unfold setupPlugins, setupPlugins_call.
  destruct (preloadLoop_returns σ (objects reg) (_plugins reg) [] app [] Hends)
    as [app' ->]. simpl.
  set (preloads := (λ r, (r, σ r)) <$> _plugins reg).
  assert (Hpass : forallb settles preloads = true).
  { apply forallb_forall. intros [r s] Hin%list_elem_of_In.
    apply list_elem_of_fmap in Hin as (r' & [= -> ->] & _).
    unfold settles. simpl. specialize (Hsettle r'). by destruct (σ r'). }
  unfold setupPlugins_promise, barrier. rewrite Hpass, filter_settles_all by done.
  set (run := {| run_reg := reg; run_app := between app';
                 run_trace := PreloadCalled <$> _plugins reg |}).
  destruct (settleAll_order (length preloads) sched preloads run)
    as (order & Hperm & ->); [done|].
  assert (Hall : Forall (λ p, settles p = true) order).
  { rewrite Hperm. apply Forall_forall. intros p Hp.
    rewrite forallb_forall in Hpass. by apply Hpass. }
  pose proof (settle_fold_trace order run Hall) as Htr.
  pose proof (settle_fold_plugins order run) as Hpl.
  pose proof (settle_fold_failed order run) as Hfl.
  set (run' := foldl (λ r p, settle p r) run order) in *.
  destruct (afterPreloads_trace run')
    as (inits & starts & Htr' & Hi & Hs & _ & Hnp & Hpl' & Hobj).
  exists order, inits, starts, (afterPreloads run').1.
  rewrite Hpl', Hobj, Hpl. simpl in *.
  split_and!; [done|done|done| |done| |by rewrite <- Hpl|by rewrite <- Hpl].
  - rewrite Htr', Htr. by rewrite <- app_assoc.
  - intros r. rewrite Hfl. simpl. apply or_iff_compat_l. split.
    + intros [e He]. exists e. rewrite Hperm in He.
      apply list_elem_of_fmap in He as (r' & [= -> He] & Hin). by rewrite He.
    + intros (e & He & Hin). exists e. rewrite Hperm.
      apply list_elem_of_fmap. exists r. by rewrite He.
Qed.

(** C3. Among registered descriptors that all have a [preload] hook, let
    exactly one, [rk], return a promise that rejects while the others'
    promises fulfil. Then every preload is launched and every other promise
    is seen to fulfil, [rk]'s [preloadFailed] flag is set, [rk] is no longer
    in the registry when [init] runs (and after), neither its [init] nor its
    [start] hook is ever called, and no other descriptor is removed on its
    account. *)
Theorem one_failed_preload_is_isolated (sched : list nat)
    (between : Application → Application) (reg : Registry) (app : Application)
    (before after : list ref) (rk : ref) (e : Exn) :
  _plugins reg = before ++ rk :: after →
  preload_ends (objects reg rk) (Rejects e) →
  (∀ r, r ∈ before ++ after → preload_ends (objects reg r) Fulfils) →
  let res := setupPlugins sched between reg app in
  (∃ s, res.1 = SetupPromise s ∧ s ≠ Pends) ∧
  (∀ r, r ∈ _plugins reg → PreloadCalled r ∈ run_trace res.2) ∧
  (∀ r, r ∈ _plugins reg → r ≠ rk → PreloadSettled r true ∈ run_trace res.2) ∧
  PreloadSettled rk false ∈ run_trace res.2 ∧
  preloadFailed (objects (run_reg res.2) rk) = true ∧
  (rk ∉ _plugins (run_reg res.2)) ∧
  (InitCalled rk ∉ run_trace res.2) ∧
  (StartCalled rk ∉ run_trace res.2) ∧
  (∀ r, r ∈ _plugins reg → r ≠ rk → preloadFailed (objects reg r) = false →
        r ∈ _plugins (run_reg res.2)).
Proof.
  intros Hreg Hk Hothers res.
  assert (Hrk : rk ∈ _plugins reg).
  { rewrite Hreg. apply elem_of_app. right. by left. }
  assert (Hfresh : rk ∉ before ++ after).
  { intros Hin. destruct (Hothers rk Hin) as (h & Hh & Hf).
    destruct Hk as (h' & Hh' & Hr). rewrite Hh in Hh'. injection Hh' as <-.
    specialize (Hf app). specialize (Hr app). congruence. }
  set (σ := λ r : ref, if decide (r = rk) then Rejects e else Fulfils).
  assert (Hσk : σ rk = Rejects e) by (unfold σ; by rewrite decide_True).
  assert (Hσ : ∀ r, r ≠ rk → σ r = Fulfils) by (intros r ?; unfold σ; by rewrite decide_False).
  assert (Hσe : ∀ r e', σ r = Rejects e' → r = rk).
  { intros r e'. unfold σ. by case_decide. }
  destruct (setupPlugins_all_settle σ sched between reg app)
    as (order & inits & starts & s & Hperm & Hout & Hs & Htr & Hpl & Hfl & Hi & Hst).
  { intros r Hr. destruct (decide (r = rk)) as [->|Hne]; [by rewrite Hσk|].
    rewrite Hσ by done. apply Hothers. rewrite Hreg in Hr.
    apply elem_of_app in Hr as [Hr|Hr]; apply elem_of_app; [by left|].
    apply elem_of_cons in Hr as [Hr|Hr]; [done|by right]. }
  { intros r. unfold σ. by case_decide. }
  fold res in Hout, Htr, Hpl, Hfl, Hi, Hst.
  assert (Hflag : preloadFailed (objects (run_reg res.2) rk) = true).
  { apply Hfl. right. by exists e. }
  assert (Hgone : rk ∉ _plugins (run_reg res.2)).
  { rewrite Hpl. intros [Hnot _]%list_elem_of_filter. done. }
  split_and!.
  - by exists s.
  - intros r Hr. rewrite Htr. apply elem_of_app. left. by apply list_elem_of_fmap_2.
  - intros r Hr Hne. rewrite Htr. apply elem_of_app. right. apply elem_of_app. left.
    apply list_elem_of_fmap. exists (r, Fulfils). split; [done|].
    rewrite Hperm. apply list_elem_of_fmap. exists r. by rewrite Hσ.
  - rewrite Htr. apply elem_of_app. right. apply elem_of_app. left.
    apply list_elem_of_fmap. exists (rk, Rejects e). split; [done|].
    rewrite Hperm. apply list_elem_of_fmap. exists rk. by rewrite Hσk.
  - done.
  - done.
  - rewrite Htr. rewrite !elem_of_app. intros [Hin|[Hin|[Hin|Hin]]];
      apply list_elem_of_fmap in Hin as (x & Hx & Hin); try done.
    injection Hx as <-. apply Hgone. by eapply elem_of_prefix.
  - rewrite Htr. rewrite !elem_of_app. intros [Hin|[Hin|[Hin|Hin]]];
      apply list_elem_of_fmap in Hin as (x & Hx & Hin); try done.
    injection Hx as <-. apply Hgone. by eapply elem_of_prefix.
  - intros r Hr Hne Hclean. rewrite Hpl. apply list_elem_of_filter. split; [|done].
    intros [Hwas|(e' & He' & _)]%Hfl; [congruence|]. by apply Hne, (Hσe r e').
Qed.

(** ** The startup chain *)

Lemma debugLog_assign (c : Channel) (v : JsVal) (app : Application) :
  debugLog (assign c v app) = debugLog app.
Proof. unfold assign. by destruct (set_value v (state app c)). Qed.

(** Both [catch] handlers of the chain log what they catch. *)
Lemma startupChain_logs (s : Settlement) (app : Application) :
  s ≠ Pends →
  (∀ e, s = Rejects e → ("warn", LExn e) ∈ debugLog (startupChain s app).2) ∧
  (∀ e, validateListeners app = Throw e →
        ("warn", LExn e) ∈ debugLog (startupChain s app).2).
Proof.
  intros Hs. destruct s as [|e0|]; [| |done]; simpl; rewrite debugLog_assign; simpl.
  - split; [done|]. intros e ->. simpl. apply elem_of_app. right. by left.
  - change (validateListeners (Debugger_log "warn" (LExn e0) app))
      with (validateListeners app).
    split.
    + intros e [= <-]. destruct (validateListeners app); simpl;
        rewrite ?elem_of_app; [right|left; right]; by left.
    + intros e ->. simpl. apply elem_of_app. right. by left.
Qed.

(** C9, as the code has it. When the constructor returns (so
    [setupPlugins()] returned a promise) and every preload promise settles,
    the startup chain runs to its end whether or not the promise of
    [setupPlugins()] rejects (an [init] or [start] hook threw) and whether
    or not [validateListeners] throws: each of the two errors is caught and
    logged as a warning, then [loaded] is sent and [ready] is set to
    [true]. *)
Theorem startup_chain_completes (search : string) (cfg : Config) (sched : list nat)
    (between : Application → Application) (reg : Registry)
    (preloads : list (ref * Settlement)) (app : Application) (tr : list Event) :
  constructor search cfg reg = ConstructorReturned preloads app tr →
  Forall (λ p, p.2 ≠ Pends) preloads →
  let setup := setupPlugins_promise sched preloads
                 {| run_reg := reg; run_app := between app; run_trace := tr |} in
  ∃ run,
    startup search cfg sched between reg = StartupChain Fulfils run ∧
    list.last (sent (container (run_app run))) = Some ("loaded", JUndefined) ∧
    value (state (run_app run) ready) = JBool true ∧
    (∀ e, setup.1 = Rejects e → ("warn", LExn e) ∈ debugLog (run_app run)) ∧
    (∀ e, validateListeners (run_app setup.2) = Throw e →
          ("warn", LExn e) ∈ debugLog (run_app run)).
Proof.
  intros Hc Hall setup. unfold startup. rewrite Hc. fold setup.
  assert (Hs : setup.1 ≠ Pends).
  { unfold setup, setupPlugins_promise, barrier.
    assert (Hpass : forallb settles preloads = true).
    { apply forallb_forall. intros p Hp%list_elem_of_In.
      rewrite Forall_forall in Hall. specialize (Hall p).
      unfold settles. destruct (p.2); [done|done|]. exfalso. by apply Hall; [apply list_elem_of_In|]. }
    rewrite Hpass. apply afterPreloads_settles. }
  destruct (startupChain_ends setup.1 (run_app setup.2) Hs) as (Hf & Hl & Hr).
  destruct (startupChain_logs setup.1 (run_app setup.2) Hs) as (Hlog1 & Hlog2).
  eexists. split; [by rewrite Hf|]. simpl. by split_and!.
Qed.

(** C1 fails on the code: a descriptor without a hook ends the loop that
    meets it. Without [init] on the first of two descriptors, the second's
    [init] and both [start] hooks are never called; without [start] on the
    first, the second's [start] is never called; without [preload] on the
    first, [setupPlugins()] returns [undefined] before any hook is called,
    and the constructor throws on [.catch]. *)
Example hookless_descriptor_ends_the_loop :
  run_trace (setupPlugins [] id (two_plugins (without_init "a") (full "b")) (blank ∅)).2
    = [PreloadCalled 0; PreloadCalled 1; PreloadSettled 0 true; PreloadSettled 1 true] ∧
  run_trace (setupPlugins [] id (two_plugins (without_start "a") (full "b")) (blank ∅)).2
    = [PreloadCalled 0; PreloadCalled 1; PreloadSettled 0 true; PreloadSettled 1 true;
       InitCalled 0; InitCalled 1] ∧
  (setupPlugins [] id (two_plugins (without_preload "a") (full "b")) (blank ∅)).1
    = SetupUndefined ∧
  run_trace (setupPlugins [] id (two_plugins (without_preload "a") (full "b")) (blank ∅)).2
    = [] ∧
  (∃ run, startup "" default_config [] id (two_plugins (without_preload "a") (full "b"))
          = StartupThrew
              (TypeError "Cannot read properties of undefined (reading 'catch')") run).
Proof. split_and!; [reflexivity|reflexivity|reflexivity|reflexivity|]. by eexists. Qed.

(** ** The constructor and whole startups *)

Lemma container_queryPlayOptions (search : string) (app app' : Application) :
  queryPlayOptions search app = Normal app' → container app' = container app.
Proof.
  unfold queryPlayOptions. destruct (exec_playOptions search); [|by intros [= <-]].
  destruct (decodeURIComponent _); [|done].
  destruct (JSON_parse _); intros [= <-]; [apply container_assign|done].
Qed.

(** With no plugin registered the constructor returns, and the handlers it
    leaves with the container are [constructed_handlers]. *)
Lemma constructor_registers_handlers (search : string) (cfg : Config)
    (objs : ref → Plugin) (app0 : Application) :
  queryPlayOptions search (connect_and_listen cfg) = Normal app0 →
  ∃ app, constructor search cfg (no_plugins objs) = ConstructorReturned [] app [] ∧
         handlers (container app) = constructed_handlers.
Proof.
  intros Hq. unfold constructor. rewrite Hq. simpl. eexists. split; [done|].
  simpl. by rewrite (container_queryPlayOptions _ _ _ Hq).
Qed.

(** A plugin that attaches a listener to [pause] in its [init]: nothing is
    missing, nothing is logged. *)
Example startup_with_pause_listener :
  ∃ run,
    @startup (example_externals false) "" default_config [] id
      (one_plugin (pause_listener "p")) = StartupChain Fulfils run ∧
    run_trace run = [PreloadCalled 0; PreloadSettled 0 true; InitCalled 0; StartCalled 0] ∧
    debugLog (run_app run) = [] ∧
    (sent (container (run_app run))).*1 = ["features"; "keepFocus"; "loaded"].
Proof. eexists. by split_and!. Qed.

(** A plugin whose [init] throws: the rejection is logged, and so is the
    missing [pause] listener; [loaded] is sent all the same. *)
Example startup_with_throwing_init :
  ∃ run,
    @startup (example_externals false) "" default_config [] id
      (one_plugin (throwing_init "t")) = StartupChain Fulfils run ∧
    run_trace run = [PreloadCalled 0; PreloadSettled 0 true; InitCalled 0] ∧
    debugLog (run_app run) =
      [("warn", LExn (Error "init threw"));
       ("warn", LExn (Error "Application state is missing required listeners: pause."))] ∧
    (sent (container (run_app run))).*1 = ["features"; "keepFocus"; "loaded"].
Proof. eexists. by split_and!. Qed.

(** The second of three preloads rejects, and the promises settle in the
    order third, first, second. *)
Example setup_with_failed_preload :
  run_trace (setupPlugins [2; 0] id three_plugins (blank ∅)).2 =
    [PreloadCalled 0; PreloadCalled 1; PreloadCalled 2;
     PreloadSettled 2 true; PreloadSettled 0 true; PreloadSettled 1 false;
     InitCalled 0; InitCalled 2; StartCalled 0; StartCalled 2] ∧
  console (run_app (setupPlugins [2; 0] id three_plugins (blank ∅)).2) =
    [("b", Error "no network")] ∧
  getPlugin "b" (run_reg (setupPlugins [2; 0] id three_plugins (blank ∅)).2) = None ∧
  getPlugin "b" three_plugins = Some 1.
Proof. by split_and!. Qed.

(** ** Container events, one by one *)

(** Each volume, caption and pause event has one handler among those the
    constructor registers: the one that copies the payload. *)
Lemma direct_handler_registered (c : Channel) :
  c ∈ events →
  filter (λ eh, eh.1 = channel_name c) constructed_handlers
  = [(channel_name c, SyncProperty c)].
Proof.
  unfold events. intros Hin.
  repeat (apply elem_of_cons in Hin as [->|Hin]; [by vm_compute|]).
  by apply elem_of_nil in Hin.
Qed.

Lemma notified_assign (c : Channel) (v : JsVal) (app : Application) :
  notified (assign c v app) =
  notified app ++ ((λ n, (c, n.1, n.2)) <$> (set_value v (state app c)).2).
Proof. unfold assign. by destruct (set_value v (state app c)). Qed.

Lemma debugLog_legacyMute (c : Channel) (data : JsVal) (app : Application) :
  debugLog (legacyMute c data app) = debugLog app.
Proof. unfold legacyMute. by rewrite debugLog_assign. Qed.

(** X1. On an application that listens as the constructor left it, the
    container event of a volume, caption or pause channel with payload
    [data] stores [data] in that channel's property and notifies each of
    its listeners once, in registration order, with [data] (unless the
    property already holds a value [=== data] and does not fire for it: then
    nothing happens); no other channel changes, and the listeners and the
    container stay as they were. *)
Theorem container_event_sets_property (c : Channel) (data : JsVal) (app : Application) :
  c ∈ events →
  handlers (container app) = constructed_handlers →
  let app' := receive (channel_name c) data app in
  (strict_eq (value (state app c)) data && negb same_value_fires = false →
     value (state app' c) = data ∧
     notified app' = notified app ++ ((λ l, (c, l, data)) <$> listeners (state app c))) ∧
  (strict_eq (value (state app c)) data && negb same_value_fires = true →
     state app' c = state app c ∧ notified app' = notified app) ∧
  (∀ c', c' ≠ c → state app' c' = state app c') ∧
  listeners (state app' c) = listeners (state app c) ∧
  container app' = container app.
Proof.
  intros Hin Hh app'. unfold app'.
  rewrite (receive_single (channel_name c) (SyncProperty c))
    by (rewrite Hh; by apply direct_handler_registered).
  simpl. split_and!.
  - intros Hchg. rewrite state_assign, decide_True, notified_assign by done.
    unfold set_value. rewrite Hchg. simpl. split; [done|].
    by rewrite <- list_fmap_compose.
  - intros Hsame. rewrite state_assign, decide_True, notified_assign by done.
    unfold set_value. rewrite Hsame. simpl. by rewrite app_nil_r.
  - intros c' Hne. by rewrite state_assign, decide_False.
  - rewrite state_assign, decide_True by done. apply set_value_listeners.
  - apply container_assign.
Qed.

(** X2. A volume property that holds 0 when its legacy mute event arrives
    with payload [true] is not restored to 0 by the mute event with payload
    [false] that follows: the recorded previous value 0 is falsy, so the
    property is set to the default 1. *)
Theorem muting_silence_unmutes_to_full (mute : string) (c : Channel)
    (app : Application) :
  (mute, c) ∈ legacyListeners →
  handlers (container app) = constructed_handlers →
  value (state app c) = JNum 0 →
  let muted := receive mute (JBool true) app in
  let restored := receive mute (JBool false) muted in
  value (state muted c) = JNum 0 ∧ value (state restored c) = JNum 1.
Proof.
  intros Hin Hh Hv. simpl.
  pose proof (legacy_handler_registered mute c Hin) as Hf.
  rewrite !(receive_single mute (LegacyMute c))
    by (rewrite ?container_run_handler by done; by rewrite Hh).
  simpl.
  destruct (legacyMute_on_zero c (JBool true) app eq_refl Hv) as [Hv1 Hp1].
  split; [done|]. rewrite legacyMute_off by done. rewrite Hp1. by apply js_or_falsy.
Qed.

(** X3. A legacy mute event, whatever its payload, changes no state channel
    other than its own volume property, keeps that property's listeners,
    logs nothing and leaves the container (messages sent, handlers) as it
    was. *)
Theorem legacy_mute_touches_only_its_volume (mute : string) (c : Channel)
    (data : JsVal) (app : Application) :
  (mute, c) ∈ legacyListeners →
  handlers (container app) = constructed_handlers →
  let app' := receive mute data app in
  (∀ c', c' ≠ c → state app' c' = state app c') ∧
  listeners (state app' c) = listeners (state app c) ∧
  container app' = container app ∧
  debugLog app' = debugLog app.
Proof.
  intros Hin Hh app'. unfold app'.
  pose proof (legacy_handler_registered mute c Hin) as Hf.
  rewrite (receive_single mute (LegacyMute c)) by (by rewrite Hh).
  simpl. split_and!.
  - intros c' Hne. unfold legacyMute. rewrite state_assign, decide_False by done.
    simpl. by rewrite fn_lookup_insert_ne.
  - unfold legacyMute. rewrite state_assign, decide_True by done.
    rewrite set_value_listeners. simpl. by rewrite fn_lookup_insert.
  - apply container_legacyMute.
  - apply debugLog_legacyMute.
Qed.


(** X5. The answer to the [playOptions] fetch replaces what the
    [playOptions] property holds (the default [{}] or an object parsed from
    the query string): the last writer wins. Its listeners are each notified
    once with the answer, and no other channel changes. *)
Theorem fetched_playOptions_replace (data : JsVal) (o : gmap string JsVal)
    (app : Application) :
  fetching (container app) = [("playOptions", FetchPlayOptions)] →
  value (state app playOptions) = JObj o →
  let app' := receive_fetch "playOptions" data app in
  value (state app' playOptions) = data ∧
  notified app' =
    notified app ++ ((λ l, (playOptions, l, data)) <$> listeners (state app playOptions)) ∧
  (∀ c, c ≠ playOptions → state app' c = state app c).
Proof.
  intros Hf Hv app'. unfold app', receive_fetch. rewrite Hf. simpl.
  split_and!.
  - rewrite state_assign, decide_True by done. unfold set_value. by rewrite Hv.
  - rewrite notified_assign. unfold set_value. rewrite Hv. simpl.
    by rewrite <- list_fmap_compose.
  - intros c Hne. by rewrite state_assign, decide_False.
Qed.

(** ** The play options of the query string, the other cases *)

(** X7. For every query string that contains [playOptions=], when the text
    the constructor takes from it decodes and parses, the parsed value is
    stored in the [playOptions] property, nothing is logged and every other
    channel keeps its initial cell. *)
Theorem valid_playOptions_are_stored (search : string) (cfg : Config) :
  contains "playOptions=" search →
  ∃ matchedToken raw before tail,
    exec_playOptions search = Some matchedToken ∧
    split "=" matchedToken !! 1 = Some raw ∧
    search = before +:+ "playOptions=" +:+ raw +:+ tail ∧
    ∀ rawValue v,
      decodeURIComponent raw = Normal rawValue →
      JSON_parse rawValue = Normal v →
      ∃ app,
        queryPlayOptions search (connect_and_listen cfg) = Normal app ∧
        value (state app playOptions) = v ∧
        debugLog app = [] ∧
        (∀ c, c ≠ playOptions → state app c = initial_state c).
Proof.
  intros Hc.
  destruct (exec_playOptions_raw search Hc)
    as (matchedToken & raw & before & tail & Hexec & Hraw & Hsearch).
  exists matchedToken, raw, before, tail. split_and!; [done|done|done|].
  intros rawValue v Hdec Hparse.
  unfold queryPlayOptions. rewrite Hexec, Hraw. simpl. rewrite Hdec, Hparse.
  eexists. split_and!; [done| | |].
  - by rewrite state_assign, decide_True.
  - by rewrite debugLog_assign.
  - intros c Hne. by rewrite state_assign, decide_False.
Qed.

(** X8. A query string without [playOptions=] is not decoded and not
    parsed: the step returns the application unchanged, whatever the
    application. *)
Theorem no_playOptions_parameter_no_effect (search : string) (app : Application) :
  ¬ contains "playOptions=" search →
  queryPlayOptions search app = Normal app.
Proof.
  intros Hno. unfold queryPlayOptions.
  destruct (exec_playOptions search) as [token|] eqn:Hexec; [|done].
  exfalso. apply Hno, exec_playOptions_matches. by rewrite Hexec.
Qed.

(** X9. The URL decoding stands outside the [try]: when
    [decodeURIComponent] throws on the text taken from the query string, the
    constructor throws that error, before the [playOptions] fetch is issued
    and before any plugin hook is called, whatever plugins are registered;
    the startup chain is never attached. *)
Theorem undecodable_playOptions_throw (search : string) (cfg : Config) :
  contains "playOptions=" search →
  ∃ matchedToken raw before tail,
    exec_playOptions search = Some matchedToken ∧
    split "=" matchedToken !! 1 = Some raw ∧
    search = before +:+ "playOptions=" +:+ raw +:+ tail ∧
    ∀ e sched between reg,
      decodeURIComponent raw = Throw e →
      constructor search cfg reg = ConstructorThrew e (connect_and_listen cfg) [] ∧
      startup search cfg sched between reg =
        StartupThrew e {| run_reg := reg; run_app := connect_and_listen cfg;
                          run_trace := [] |} ∧
      fetching (container (connect_and_listen cfg)) = [].
Proof.
  intros Hc.
  destruct (exec_playOptions_raw search Hc)
    as (matchedToken & raw & before & tail & Hexec & Hraw & Hsearch).
  exists matchedToken, raw, before, tail. split_and!; [done|done|done|].
  intros e sched between reg Hdec.
  assert (Hq : queryPlayOptions search (connect_and_listen cfg) = Throw e).
  { unfold queryPlayOptions. rewrite Hexec, Hraw. simpl. by rewrite Hdec. }
  unfold startup, constructor. by rewrite Hq.
Qed.

(** ** Listener validation, the other cases *)

(** X10. [validateListeners] returns without throwing exactly when no
    required channel ([pause], and the channel of each enabled feature) is
    without a listener. *)
Theorem validateListeners_passes_iff (app : Application) :
  validateListeners app = Normal () ↔ ∀ c, ¬ unheard app c.
Proof.
  unfold validateListeners. split.
  - intros Hok c Hc. apply unheard_missing in Hc.
    destruct (missingListeners app); [by apply elem_of_nil in Hc|done].
  - intros Hnone. destruct (missingListeners app) as [|nm l] eqn:Hm; [done|].
    destruct (missing_unheard app nm) as (c & _ & Hc); [rewrite Hm; by left|].
    by destruct (Hnone c).
Qed.

(** X11. The channels named in the error come in one fixed order, each at
    most once: [captionsMuted], [soundVolume], [musicVolume], [voVolume],
    [sfxVolume], [pause]. *)
Theorem missing_listeners_in_fixed_order (app : Application) :
  missingListeners app `sublist_of`
    ["captionsMuted"; "soundVolume"; "musicVolume"; "voVolume"; "sfxVolume"; "pause"].
Proof.
  unfold missingListeners.
  rewrite (foldl_push_filter
             (λ ks, truthy (get ks.1 (features app)) && negb (hasListeners (state app ks.2)))
             (λ ks, channel_name ks.2)).
  change ["captionsMuted"; "soundVolume"; "musicVolume"; "voVolume"; "sfxVolume"; "pause"]
    with (((λ ks : string * Channel, channel_name ks.2) <$> featureToStateMap) ++ ["pause"]).
  simpl ([] ++ _).
  destruct (negb (hasListeners (state app pause))).
  - apply sublist_app; [|done]. apply fmap_sublist, sublist_filter.
  - apply sublist_inserts_r. apply fmap_sublist, sublist_filter.
Qed.

(** X12. When the promise of [setupPlugins()] fulfils and no required
    channel lacks a listener, the startup chain logs nothing: it only sends
    [loaded] and sets [ready] to [true]. *)
Theorem clean_startup_logs_nothing (app : Application) :
  (∀ c, ¬ unheard app c) →
  (startupChain Fulfils app).1 = Fulfils ∧
  debugLog (startupChain Fulfils app).2 = debugLog app ∧
  sent (container (startupChain Fulfils app).2) =
    sent (container app) ++ [("loaded", JUndefined)] ∧
  value (state (startupChain Fulfils app).2 ready) = JBool true ∧
  (∀ c, c ≠ ready → state (startupChain Fulfils app).2 c = state app c).
Proof.
  intros Hnone.
  assert (Hok : validateListeners app = Normal ()).
  { unfold validateListeners.
    destruct (missingListeners app) as [|nm l] eqn:Hm; [done|].
    destruct (missing_unheard app nm) as (c & _ & Hc); [rewrite Hm; by left|].
    by destruct (Hnone c). }
  simpl. rewrite Hok. split_and!.
  - done.
  - by rewrite debugLog_assign.
  - by rewrite container_assign.
  - apply value_assign_bool.
  - intros c Hne. by rewrite state_assign, decide_False.
Qed.

(** ** Feature flags, the other keys *)

(** X13. Building the feature set changes [sound] at most: every other key
    holds the caller's value when the caller gave one and the default of
    lines 46-56 otherwise; and when none of [vo], [music], [sfx] is truthy,
    [sound] too holds the caller's value or the default [false]. *)
Theorem features_pass_through (features : option (gmap string JsVal)) (k : string) :
  (k ≠ "sound" →
     get k (make_features features) =
     default (get k default_features) (default ∅ features !! k)) ∧
  (truthy (get "vo" (make_features features)) = false →
   truthy (get "music" (make_features features)) = false →
   truthy (get "sfx" (make_features features)) = false →
     get "sound" (make_features features) =
     default (JBool false) (default ∅ features !! "sound")).
Proof.
  assert (Hget : ∀ k', get k' (Object_assign default_features (default ∅ features)) =
                       default (get k' default_features) (default ∅ features !! k')).
  { intros k'. unfold get, Object_assign. rewrite lookup_union.
    by destruct (default ∅ features !! k'), (default_features !! k'). }
  unfold make_features.
  set (fs := Object_assign default_features (default ∅ features)) in *.
  destruct (truthy (get "vo" fs) || truthy (get "music" fs) || truthy (get "sfx" fs))
    eqn:Hany.
  - split.
    + intros Hk. unfold get at 1. rewrite lookup_insert_ne by done. apply Hget.
    + unfold get at 1 2 3. rewrite !lookup_insert_ne by done.
      fold (get "vo" fs) (get "music" fs) (get "sfx" fs).
      intros Hvo Hmusic Hsfx. by rewrite Hvo, Hmusic, Hsfx in Hany.
  - split; [intros _; apply Hget|]. intros _ _ _. apply Hget.
Qed.

(** ** The registry, registering and finding *)

(** X14. Registering a descriptor never hides one that [getPlugin] already
    finds under a name: after [uses(plugin)], a name found before is found
    as before, a name not found before is found iff it is the new
    descriptor's name, and then the new descriptor is the result. *)
Theorem getPlugin_after_uses (nm : string) (plugin : ref) (reg : Registry) :
  getPlugin nm (uses plugin reg) =
  match getPlugin nm reg with
  | Some found => Some found
  | None => if decide (name (objects reg plugin) = nm) then Some plugin else None
  end.
Proof.
  unfold getPlugin, uses. simpl.
  induction (_plugins reg) as [|r rs IH]; simpl.
  - destruct (String.eqb_spec (name (objects reg plugin)) nm).
    + by rewrite decide_True.
    + by rewrite decide_False.
  - by destruct (String.eqb (name (objects reg r)) nm).
Qed.


(** ** The plugin runner, phase by phase *)

(** Promises that all fulfil change nothing but the trace. *)
Lemma settle_fold_fulfils (order : list (ref * Settlement)) (run : Run) :
  Forall (λ p, p.2 = Fulfils) order →
  foldl (λ r p, settle p r) run order =
  {| run_reg := run_reg run; run_app := run_app run;
     run_trace := run_trace run ++ (settled_event <$> order) |}.
Proof.
  intros Hall. revert run.
  induction Hall as [|[r s] order Hs _ IH]; intros run; simpl.
  - rewrite app_nil_r. by destruct run.
  - simpl in Hs. subst s. rewrite IH. unfold settle, settled_event. simpl.
    by rewrite <- app_assoc.
Qed.

(** When every [preload] hook returns a promise that fulfils, the callback
    runs on the registry and the application as the preload calls left
    them. *)
Lemma setupPlugins_all_fulfil (sched : list nat) (between : Application → Application)
    (reg : Registry) (app : Application) :
  (∀ r, r ∈ _plugins reg → preload_ends (objects reg r) Fulfils) →
  ∃ order app',
    order ≡ₚ (λ r, (r, Fulfils)) <$> _plugins reg ∧
    setupPlugins sched between reg app =
    (SetupPromise
       (afterPreloads
          {| run_reg := reg; run_app := between app';
             run_trace := (PreloadCalled <$> _plugins reg) ++ (settled_event <$> order) |}).1,
     (afterPreloads
          {| run_reg := reg; run_app := between app';
             run_trace := (PreloadCalled <$> _plugins reg) ++ (settled_event <$> order) |}).2).
Proof.
  intros Hends. unfold setupPlugins, setupPlugins_call.
  destruct (preloadLoop_returns (λ _, Fulfils) (objects reg) (_plugins reg) [] app [] Hends)
    as [app' ->]. simpl.
  set (preloads := (λ r, (r, Fulfils)) <$> _plugins reg).
  assert (Hful : Forall (λ p : ref * Settlement, p.2 = Fulfils) preloads).
  { apply Forall_forall. intros p Hp. apply list_elem_of_In in Hp.
    by apply list_elem_of_fmap in Hp as (r & -> & _). }
  assert (Hpass : forallb settles preloads = true).
  { apply forallb_forall. intros p Hp. rewrite Forall_forall in Hful.
    unfold settles. by rewrite (Hful p Hp). }
  unfold setupPlugins_promise, barrier. rewrite Hpass, filter_settles_all by done.
  destruct (settleAll_order (length preloads) sched preloads
              {| run_reg := reg; run_app := between app';
                 run_trace := PreloadCalled <$> _plugins reg |})
    as (order & Hperm & ->); [done|].
  exists order, app'. split; [done|].
  rewrite settle_fold_fulfils; [done|]. by rewrite Hperm.
Qed.

(** A hook loop over hooks that all return reaches the end. *)
Lemma hookLoop_completes (hook : Plugin → option (Application → Application * option Exn))
    (ev : ref → Event) (objs : ref → Plugin) (todo : list ref)
    (app : Application) (tr : list Event) :
  (∀ r, r ∈ todo → hook_returns (hook (objs r))) →
  ∃ app', hookLoop hook ev objs todo app tr = (HooksDone, app', tr ++ (ev <$> todo)).
Proof.
  revert app tr. induction todo as [|r todo IH]; intros app tr Hret; simpl.
  - exists app. by rewrite app_nil_r.
  - destruct (Hret r) as (h & -> & Hnone); [by left|].
    specialize (Hnone app). destruct (h app) as [app1 res]. simpl in Hnone. subst res.
    destruct (IH app1 (tr ++ [ev r])) as [app' ->].
    { intros r' Hr'. apply Hret. by right. }
    exists app'. by rewrite <- app_assoc.
Qed.

(** A hook loop stops at the first hook that throws. *)
Lemma hookLoop_throws (hook : Plugin → option (Application → Application * option Exn))
    (ev : ref → Event) (objs : ref → Plugin) (before after : list ref) (r : ref)
    (e : Exn) (app : Application) (tr : list Event) :
  (∀ r', r' ∈ before → hook_returns (hook (objs r'))) →
  hook_throws (hook (objs r)) e →
  ∃ app', hookLoop hook ev objs (before ++ r :: after) app tr
          = (HooksThrew e, app', tr ++ (ev <$> before ++ [r])).
Proof.
  revert app tr. induction before as [|r0 before IH]; intros app tr Hret Hthrow; simpl.
  - destruct Hthrow as (h & -> & Hsome). specialize (Hsome app).
    destruct (h app) as [app1 res]. simpl in Hsome. subst res. by exists app1.
  - destruct (Hret r0) as (h & -> & Hnone); [by left|].
    specialize (Hnone app). destruct (h app) as [app1 res]. simpl in Hnone. subst res.
    destruct (IH app1 (tr ++ [ev r0])) as [app' ->]; [|done|].
    { intros r' Hr'. apply Hret. by right. }
    exists app'. by rewrite <- app_assoc.
Qed.

Lemma filter_unflagged_all (objs : ref → Plugin) (rs : list ref) :
  (∀ r, r ∈ rs → preloadFailed (objs r) = false) →
  filter (λ plugin, preloadFailed (objs plugin) ≠ true) rs = rs.
Proof.
  induction rs as [|r rs IH]; intros Hclean; [done|].
  rewrite filter_cons, decide_True.
  - rewrite IH; [done|]. intros r' Hr'. apply Hclean. by right.
  - rewrite Hclean; [done|by left].
Qed.

(** X16. When every registered descriptor has the three hooks, no
    [preloadFailed] flag is set, every preload promise fulfils and no hook
    throws, then [setupPlugins()] calls every [preload], then, once all
    promises have settled, every [init] and then every [start], each once
    and in registration order; its promise fulfils and the registry is
    unchanged. *)
Theorem every_hook_runs_once (sched : list nat) (between : Application → Application)
    (reg : Registry) (app : Application) :
  (∀ r, r ∈ _plugins reg →
        preload_ends (objects reg r) Fulfils ∧ preloadFailed (objects reg r) = false ∧
        hook_returns (init (objects reg r)) ∧ hook_returns (start (objects reg r))) →
  ∃ order,
    order ≡ₚ (λ r, (r, Fulfils)) <$> _plugins reg ∧
    (setupPlugins sched between reg app).1 = SetupPromise Fulfils ∧
    run_trace (setupPlugins sched between reg app).2 =
      (PreloadCalled <$> _plugins reg) ++ (settled_event <$> order) ++
      (InitCalled <$> _plugins reg) ++ (StartCalled <$> _plugins reg) ∧
    _plugins (run_reg (setupPlugins sched between reg app).2) = _plugins reg.
Proof.
  intros Hall.
  destruct (setupPlugins_all_fulfil sched between reg app) as (order & app' & Hperm & ->).
  { intros r Hr. by apply Hall. }
  exists order. split; [done|]. unfold afterPreloads. simpl.
  rewrite filter_unflagged_all by (intros r Hr; by apply Hall).
  destruct (hookLoop_completes init InitCalled (objects reg) (_plugins reg) (between app')
              ((PreloadCalled <$> _plugins reg) ++ (settled_event <$> order)))
    as [app1 ->]; [intros r Hr; by apply Hall|].
  destruct (hookLoop_completes start StartCalled (objects reg) (_plugins reg) app1
              (((PreloadCalled <$> _plugins reg) ++ (settled_event <$> order)) ++
               (InitCalled <$> _plugins reg)))
    as [app2 ->]; [intros r Hr; by apply Hall|].
  simpl. by rewrite <- !app_assoc.
Qed.

(** X17. No failure isolation in the [init] phase: with preloads that all
    fulfil, when the [init] hook of a descriptor throws, the promise of
    [setupPlugins()] rejects with that error, the [init] hooks of the
    descriptors registered after it are never called, and no [start] hook
    is called at all. *)
Theorem throwing_init_aborts_startup (sched : list nat)
    (between : Application → Application) (reg : Registry) (app : Application)
    (before after : list ref) (r : ref) (e : Exn) :
  _plugins reg = before ++ r :: after →
  (∀ r', r' ∈ _plugins reg →
         preload_ends (objects reg r') Fulfils ∧ preloadFailed (objects reg r') = false) →
  (∀ r', r' ∈ before → hook_returns (init (objects reg r'))) →
  hook_throws (init (objects reg r)) e →
  ∃ order,
    order ≡ₚ (λ r, (r, Fulfils)) <$> _plugins reg ∧
    (setupPlugins sched between reg app).1 = SetupPromise (Rejects e) ∧
    run_trace (setupPlugins sched between reg app).2 =
      (PreloadCalled <$> _plugins reg) ++ (settled_event <$> order) ++
      (InitCalled <$> before ++ [r]).
Proof.
  intros Hreg Hall Hret Hthrow.
  destruct (setupPlugins_all_fulfil sched between reg app) as (order & app' & Hperm & ->).
  { intros r' Hr'. by apply Hall. }
  exists order. split; [done|]. unfold afterPreloads. simpl.
  rewrite filter_unflagged_all by (intros r' Hr'; by apply Hall).
  destruct (hookLoop_throws init InitCalled (objects reg) before after r e (between app')
              ((PreloadCalled <$> _plugins reg) ++ (settled_event <$> order)) Hret Hthrow)
    as [app1 Hloop].
  rewrite <- Hreg in Hloop. rewrite Hloop.
  simpl. by rewrite <- !app_assoc.
Qed.

(** X18. Nor in the [start] phase: when every [init] returns and the
    [start] hook of a descriptor throws, every [init] has been called, the
    promise of [setupPlugins()] rejects with that error and the [start]
    hooks of the descriptors registered after it are never called. *)
Theorem throwing_start_aborts_startup (sched : list nat)
    (between : Application → Application) (reg : Registry) (app : Application)
    (before after : list ref) (r : ref) (e : Exn) :
  _plugins reg = before ++ r :: after →
  (∀ r', r' ∈ _plugins reg →
         preload_ends (objects reg r') Fulfils ∧ preloadFailed (objects reg r') = false ∧
         hook_returns (init (objects reg r'))) →
  (∀ r', r' ∈ before → hook_returns (start (objects reg r'))) →
  hook_throws (start (objects reg r)) e →
  ∃ order,
    order ≡ₚ (λ r, (r, Fulfils)) <$> _plugins reg ∧
    (setupPlugins sched between reg app).1 = SetupPromise (Rejects e) ∧
    run_trace (setupPlugins sched between reg app).2 =
      (PreloadCalled <$> _plugins reg) ++ (settled_event <$> order) ++
      (InitCalled <$> _plugins reg) ++ (StartCalled <$> before ++ [r]).
Proof.
  intros Hreg Hall Hret Hthrow.
  destruct (setupPlugins_all_fulfil sched between reg app) as (order & app' & Hperm & ->).
  { intros r' Hr'. by apply Hall. }
  exists order. split; [done|]. unfold afterPreloads. simpl.
  rewrite filter_unflagged_all by (intros r' Hr'; by apply Hall).
  destruct (hookLoop_completes init InitCalled (objects reg) (_plugins reg) (between app')
              ((PreloadCalled <$> _plugins reg) ++ (settled_event <$> order)))
    as [app1 ->]; [intros r' Hr'; by apply Hall|].
  destruct (hookLoop_throws start StartCalled (objects reg) before after r e app1
              (((PreloadCalled <$> _plugins reg) ++ (settled_event <$> order)) ++
               (InitCalled <$> _plugins reg)) Hret Hthrow)
    as [app2 Hloop].
  rewrite <- Hreg in Hloop. rewrite Hloop.
  simpl. by rewrite <- !app_assoc.
Qed.

Lemma filter_flags_ext (objs1 objs2 : ref → Plugin) (rs : list ref) :
  (∀ r, preloadFailed (objs1 r) = preloadFailed (objs2 r)) →
  filter (λ plugin, preloadFailed (objs1 plugin) ≠ true) rs =
  filter (λ plugin, preloadFailed (objs2 plugin) ≠ true) rs.
Proof.
  intros Hsame. induction rs as [|r rs IH]; [done|].
  rewrite !filter_cons, IH.
  destruct (decide (preloadFailed (objs1 r) ≠ true)) as [H1|H1];
    destruct (decide (preloadFailed (objs2 r) ≠ true)) as [H2|H2];
    rewrite Hsame in H1; done.
Qed.

(** X19. The order in which the preload promises settle decides neither
    which descriptors are flagged nor which remain registered, nor whether
    the promise of [setupPlugins()] stays pending: two runs that differ in
    the settlement order only agree on all three. *)
Theorem survivors_do_not_depend_on_schedule (sched1 sched2 : list nat)
    (preloads : list (ref * Settlement)) (run : Run) :
  _plugins (run_reg (setupPlugins_promise sched1 preloads run).2) =
  _plugins (run_reg (setupPlugins_promise sched2 preloads run).2) ∧
  (∀ r, preloadFailed (objects (run_reg (setupPlugins_promise sched1 preloads run).2) r) =
        preloadFailed (objects (run_reg (setupPlugins_promise sched2 preloads run).2) r)) ∧
  ((setupPlugins_promise sched1 preloads run).1 = Pends ↔
   (setupPlugins_promise sched2 preloads run).1 = Pends).
Proof.
  unfold setupPlugins_promise, barrier.
  destruct (settleAll_order (length preloads) sched1 (List.filter settles preloads) run)
    as (order1 & Hperm1 & ->); [apply filter_settles_length|].
  destruct (settleAll_order (length preloads) sched2 (List.filter settles preloads) run)
    as (order2 & Hperm2 & ->); [apply filter_settles_length|].
  set (run1 := foldl (λ r p, settle p r) run order1).
  set (run2 := foldl (λ r p, settle p r) run order2).
  assert (Hflags : ∀ r, preloadFailed (objects (run_reg run1) r) =
                        preloadFailed (objects (run_reg run2) r)).
  { intros r. pose proof (settle_fold_failed order1 run r) as H1.
    pose proof (settle_fold_failed order2 run r) as H2. fold run1 in H1. fold run2 in H2.
    assert (Hiff : preloadFailed (objects (run_reg run1) r) = true ↔
                   preloadFailed (objects (run_reg run2) r) = true).
    { rewrite H1, H2. apply or_iff_compat_l.
      split; intros [e He]; exists e; [rewrite Hperm2, <- Hperm1|rewrite Hperm1, <- Hperm2];
        done. }
    destruct (preloadFailed (objects (run_reg run1) r)),
             (preloadFailed (objects (run_reg run2) r)); try done.
    - symmetry. by apply Hiff.
    - by apply Hiff. }
  assert (Hplugins : _plugins (run_reg run1) = _plugins (run_reg run2)).
  { unfold run1, run2. by rewrite !settle_fold_plugins. }
  destruct (forallb settles preloads).
  - destruct (afterPreloads_trace run1) as (_ & _ & _ & _ & _ & _ & Hne1 & Hpl1 & Hobj1).
    destruct (afterPreloads_trace run2) as (_ & _ & _ & _ & _ & _ & Hne2 & Hpl2 & Hobj2).
    rewrite Hpl1, Hpl2, Hobj1, Hobj2, Hplugins.
    split_and!; [by apply filter_flags_ext|done|done].
  - simpl. by split_and!.
Qed.

(** X20. A preload promise that never settles keeps the barrier shut for
    good: the promise of [setupPlugins()] stays pending, nothing is removed
    from the registry and no [init] or [start] hook is called, while the
    promises that do settle are still handled (a descriptor whose promise
    rejected is flagged). *)
Theorem pending_preload_blocks_startup (sched : list nat)
    (preloads : list (ref * Settlement)) (run : Run) (stuck : ref) :
  (stuck, Pends) ∈ preloads →
  ∃ order,
    order ≡ₚ List.filter settles preloads ∧
    (setupPlugins_promise sched preloads run).1 = Pends ∧
    run_trace (setupPlugins_promise sched preloads run).2 =
      run_trace run ++ (settled_event <$> order) ∧
    _plugins (run_reg (setupPlugins_promise sched preloads run).2) = _plugins (run_reg run) ∧
    (∀ r e, (r, Rejects e) ∈ preloads →
            preloadFailed (objects (run_reg (setupPlugins_promise sched preloads run).2) r)
            = true).
Proof.
  intros Hstuck. unfold setupPlugins_promise, barrier.
  assert (Hshut : forallb settles preloads = false).
  { destruct (forallb settles preloads) eqn:Hpass; [|done].
    rewrite forallb_forall in Hpass.
    by specialize (Hpass (stuck, Pends) (proj1 (list_elem_of_In _ _) Hstuck)). }
  rewrite Hshut.
  destruct (settleAll_order (length preloads) sched (List.filter settles preloads) run)
    as (order & Hperm & ->); [apply filter_settles_length|].
  exists order. simpl. split_and!; [done|done| | |].
  - apply settle_fold_trace. rewrite Hperm. apply filter_settles_Forall.
  - apply settle_fold_plugins.
  - intros r e Hin. apply settle_fold_failed. right. exists e. rewrite Hperm.
    apply list_elem_of_In, filter_In. split; [by apply list_elem_of_In|done].
Qed.



(** ** Across startups *)

(** The shape of the trace of [setupPlugins], for any registry. *)
Lemma setupPlugins_trace (sched : list nat) (between : Application → Application)
    (reg : Registry) (app : Application) :
  ∃ launched order inits starts survivors,
    run_trace (setupPlugins sched between reg app).2 =
      (PreloadCalled <$> launched) ++ (settled_event <$> order) ++
      (InitCalled <$> inits) ++ (StartCalled <$> starts) ∧
    launched `prefix_of` _plugins reg ∧
    survivors `sublist_of` _plugins reg ∧
    inits `prefix_of` survivors ∧ starts `prefix_of` survivors.
Proof.
  unfold setupPlugins, setupPlugins_call.
  destruct (preloadLoop_trace (objects reg) (_plugins reg) [] app [])
    as (called & Hpre & Htr & Hdone).
  destruct (preloadLoop (objects reg) (_plugins reg) [] app [])
    as [[[| e |preloads] app'] tr]; simpl in *; subst tr.
  1, 2: exists called, [], [], [], []; rewrite !fmap_nil, !app_nil_r;
    (split_and!; [done|done|apply sublist_nil_l|done|done]).
  destruct (Hdone preloads eq_refl) as (-> & _).
  destruct (setupPlugins_promise_trace sched preloads
              {| run_reg := reg; run_app := between app';
                 run_trace := PreloadCalled <$> _plugins reg |})
    as (order & inits & starts & survivors & Htr & _ & Hsub & Hi & Hs & _).
  exists (_plugins reg), order, inits, starts, survivors. by split_and!.
Qed.

(** X25. The removal is for good: the registry is static, so a descriptor
    flagged when the barrier of one application opens is no longer there
    for the next application, none of whose hooks ([preload], [init],
    [start]) is ever called for it. *)
Theorem failed_plugin_is_gone_for_good (run : Run) (r : ref) (sched : list nat)
    (between : Application → Application) (app : Application) :
  preloadFailed (objects (run_reg run) r) = true →
  let next := setupPlugins sched between (run_reg (afterPreloads run).2) app in
  (r ∉ _plugins (run_reg (afterPreloads run).2)) ∧
  (PreloadCalled r ∉ run_trace next.2) ∧
  (InitCalled r ∉ run_trace next.2) ∧
  (StartCalled r ∉ run_trace next.2).
Proof.
  intros Hflag next.
  assert (Hgone : r ∉ _plugins (run_reg (afterPreloads run).2)).
  { destruct (afterPreloads_trace run) as (_ & _ & _ & _ & _ & _ & _ & -> & _).
    intros [Hnot _]%list_elem_of_filter. done. }
  destruct (setupPlugins_trace sched between (run_reg (afterPreloads run).2) app)
    as (launched & order & inits & starts & survivors & Htr & Hl & Hsub & Hi & Hs).
  fold next in Htr.
  assert (Hsurv : r ∉ survivors).
  { intros Hin. apply Hgone. by eapply elem_of_sublist. }
  split_and!; [done| | |]; rewrite Htr, !elem_of_app;
    intros [Hin|[Hin|[Hin|Hin]]];
    apply list_elem_of_fmap in Hin as (x & Hx & Hin); try done;
    injection Hx as <-.
  - apply Hgone. by eapply elem_of_prefix.
  - apply Hsurv. by eapply elem_of_prefix.
  - apply Hsurv. by eapply elem_of_prefix.
Qed.

(** With a listener on every required channel, validation passes. *)
Lemma validateListeners_heard (app : Application) :
  (∀ c, ¬ unheard app c) → validateListeners app = Normal ().
Proof.
  intros Hnone. unfold validateListeners.
  destruct (missingListeners app) as [|nm l] eqn:Hm; [done|].
  destruct (missing_unheard app nm) as (c & _ & Hc); [rewrite Hm; by left|].
  by destruct (Hnone c).
Qed.

(** X6. Validation runs in the asynchronous chain, after the constructor
    has returned: with no plugin registered, listeners that the host
    program attaches right after [new Application(...)] are in time.
    Whenever the application as the host program leaves it has a listener
    on every required channel, the startup logs no warning and ends with
    [loaded] sent and [ready] set to [true]. *)
Theorem listeners_attached_after_construction_count (search : string) (cfg : Config)
    (sched : list nat) (between : Application → Application) (objs : ref → Plugin)
    (app0 : Application) :
  queryPlayOptions search (connect_and_listen cfg) = Normal app0 →
  (∀ c, ¬ unheard (between (register_hints cfg
                              (container_fetch "playOptions" FetchPlayOptions app0))) c) →
  ∃ run,
    startup search cfg sched between (no_plugins objs) = StartupChain Fulfils run ∧
    debugLog (run_app run) =
      debugLog (between (register_hints cfg
                           (container_fetch "playOptions" FetchPlayOptions app0))) ∧
    list.last (sent (container (run_app run))) = Some ("loaded", JUndefined) ∧
    value (state (run_app run) ready) = JBool true.
Proof.
  intros Hq Hheard. unfold startup, constructor. rewrite Hq. simpl.
  rewrite (validateListeners_heard _ Hheard).
  eexists. split; [done|]. simpl. split_and!.
  - by rewrite debugLog_assign.
  - rewrite container_assign. simpl. apply last_snoc.
  - apply value_assign_bool.
Qed.

End Proofs.

(** * The languages plugin *)

(** X22. A preload of the languages plugin that comes to its end calls
    [done] exactly once, as its last call. With an empty path option nothing
    is loaded and no [Languages] method is called. Otherwise the file is
    loaded, [setConfig] is called with its content, and [setLanguage] is
    called exactly when the language option is truthy at that time. This
    holds provided nothing else makes calls on the collaborators while the
    file loads. *)
Theorem languages_preload_calls_done_once (env : LanguagesPlugin.Env)
    (between : LanguagesPlugin.App → LanguagesPlugin.App)
    (app ended : LanguagesPlugin.App) :
  (∀ a, LanguagesPlugin.calls (between a) = LanguagesPlugin.calls a) →
  LanguagesPlugin.preload_to_end env between app = Some (Normal ended) →
  let path := get "languagesPath" (LanguagesPlugin.options app) in
  let lang := get "language"
                (LanguagesPlugin.options (between (LanguagesPlugin.preload env app))) in
  ∃ new,
    LanguagesPlugin.calls ended =
      LanguagesPlugin.calls app ++ new ++ [LanguagesPlugin.Done] ∧
    (LanguagesPlugin.Done ∉ new) ∧
    (truthy path = false → ∀ c, c ∈ new → ∃ msg, c = LanguagesPlugin.DebugInfo msg) ∧
    (truthy path = true →
       ∃ content,
         LanguagesPlugin.loader env path = Some content ∧
         new = LanguagesPlugin.LoaderLoad path :: LanguagesPlugin.SetConfig content ::
               (if truthy lang then [LanguagesPlugin.SetLanguage lang] else [])).
Proof.
  intros Hcalls. unfold LanguagesPlugin.preload_to_end, LanguagesPlugin.preload.
  destruct (truthy (get "languagesPath" (LanguagesPlugin.options app))) eqn:Hpath.
  - destruct (LanguagesPlugin.loader env _) as [content|] eqn:Hload; [|done].
    unfold LanguagesPlugin.on_loaded.
    destruct (LanguagesPlugin.languages (between _)); [done| |done].
    simpl.
    destruct (truthy (get "language" (LanguagesPlugin.options (between _)))) eqn:Hlang;
      intros [= <-]; simpl; rewrite Hcalls; simpl;
      eexists (_ :: _ :: _); (split_and!; [by rewrite <- !app_assoc| |done|]).
    + intros Hin. repeat (apply elem_of_cons in Hin as [Hin|Hin]; [done|]).
      by apply elem_of_nil in Hin.
    + intros _. exists content. split; [done|]. by rewrite ?Hpath, ?Hlang.
    + intros Hin. repeat (apply elem_of_cons in Hin as [Hin|Hin]; [done|]).
      by apply elem_of_nil in Hin.
    + intros _. exists content. split; [done|]. by rewrite ?Hpath, ?Hlang.
  - destruct (LanguagesPlugin.DEBUG env && LanguagesPlugin.Debug env);
      intros [= <-]; simpl.
    + eexists [_]. split_and!; [by rewrite <- app_assoc| | |done].
      * intros Hin. apply elem_of_cons in Hin as [Hin|Hin]; [done|].
        by apply elem_of_nil in Hin.
      * intros _ c Hc. apply list_elem_of_singleton in Hc as ->. by eexists.
    + exists []. split_and!; [done| | |done].
      * by intros Hin%elem_of_nil.
      * intros _ c Hc. by apply elem_of_nil in Hc.
Qed.


(** X24. Tearing the plugin down is idempotent and destroys the
    [Languages] instance at most once: the first teardown of an application
    that holds an instance calls [destroy] once and sets the field to
    [null]; a teardown without an instance calls nothing; and a second
    teardown changes nothing. *)
Theorem languages_teardown_idempotent (app : LanguagesPlugin.App) :
  LanguagesPlugin.teardown (LanguagesPlugin.teardown app) = LanguagesPlugin.teardown app ∧
  LanguagesPlugin.languages (LanguagesPlugin.teardown app) = LanguagesPlugin.Null ∧
  LanguagesPlugin.calls (LanguagesPlugin.teardown (LanguagesPlugin.setup app)) =
    LanguagesPlugin.calls (LanguagesPlugin.setup app) ++ [LanguagesPlugin.Destroy] ∧
  (LanguagesPlugin.languages app ≠ LanguagesPlugin.Instance →
     LanguagesPlugin.calls (LanguagesPlugin.teardown app) = LanguagesPlugin.calls app).
Proof.
  unfold LanguagesPlugin.teardown. split_and!; [done|done|done|].
  by destruct (LanguagesPlugin.languages app).
Qed.

(** * The theorems at concrete inputs *)

(** [soundVolume] at 0.8, muted and restored. *)
Lemma legacy_mute_round_trip_witness :
  value (state (@receive (example_externals false) "soundMuted" (JBool true)
                  (app_at_08 false)) soundVolume) = JNum 0 ∧
  value (state (@receive (example_externals false) "soundMuted" (JBool false)
                  (@receive (example_externals false) "soundMuted" (JBool true)
                     (app_at_08 false))) soundVolume) = JNum 0.8.
Proof.
  apply (@legacy_mute_round_trip (example_externals false) "soundMuted" soundVolume
           (JNum 0.8) (app_at_08 false)).
  - unfold legacyListeners. in_list.
  - reflexivity.
  - reflexivity.
  - reflexivity.
Defined.

(** [soundVolume] at 0.8, muted twice, then unmuted: 1, not 0.8. *)
Lemma double_mute_forgets_volume_witness :
  value (state (@receive (example_externals false) "soundMuted" (JBool false)
                  (@receive (example_externals false) "soundMuted" (JBool true)
                     (@receive (example_externals false) "soundMuted" (JBool true)
                        (app_at_08 false)))) soundVolume) = JNum 1.
Proof.
  destruct (@double_mute_forgets_volume (example_externals false) "soundMuted"
              soundVolume (JNum 0.8) (app_at_08 false)) as (_ & _ & Hone & _).
  - unfold legacyListeners. in_list.
  - reflexivity.
  - reflexivity.
  - reflexivity.
  - exact Hone.
Defined.

(** Features [{vo: true}]: [sound] is on. *)
Lemma sound_forced_by_channels_witness :
  get "sound" (features (connect_and_listen vo_only)) = JBool true.
Proof.
  apply (sound_forced_by_channels vo_only). left. reflexivity.
Defined.

(** [?lang=en&playOptions=%7Bbad&x=1]: a warning, and the property
    untouched. *)
Lemma malformed_playOptions_keeps_default_witness :
  ∃ app,
    @queryPlayOptions (example_externals false) "?lang=en&playOptions=%7Bbad&x=1"
      (connect_and_listen default_config) = Normal app ∧
    debugLog app =
      [("warn", LStr "Failed to parse playOptions from query string:Unexpected token")] ∧
    state app playOptions = new_Property (JObj ∅).
Proof.
  destruct (@malformed_playOptions_keeps_default (example_externals false)
              "?lang=en&playOptions=%7Bbad&x=1" default_config)
    as (matchedToken & raw & before & tail & Hexec & Hraw & _ & _ & _ & _ & Hkeeps).
  - by exists "?lang=en&", "%7Bbad&x=1".
  - injection Hexec as <-. injection Hraw as <-.
    destruct (Hkeeps "%7Bbad"
                {| exn_name := "SyntaxError"; message := "Unexpected token" |}
                eq_refl eq_refl) as (app & Happ & Hlog & _ & _ & Hval).
    exists app. by split_and!.
Defined.

(** C7 as stated fails: in [?playOptions=5=6] the value of the parameter is
    [5=6], which is not valid JSON, yet no warning is logged and the
    property does not keep its default: the constructor cuts the value at
    the ['='], parses [5] and stores it. *)
Lemma cut_playOptions_value_is_stored :
  contains "playOptions=" "?playOptions=5=6" ∧
  parameter_value "playOptions" "?playOptions=5=6" = Some "5=6" ∧
  @decodeURIComponent digit_externals "5=6" = Normal "5=6" ∧
  (∃ e, @JSON_parse digit_externals "5=6" = Throw e) ∧
  ∃ app,
    @queryPlayOptions digit_externals "?playOptions=5=6"
      (connect_and_listen default_config) = Normal app ∧
    value (state app playOptions) = JNum 5 ∧
    debugLog app = [].
Proof.
  split_and!; [by exists "?", "5=6"|reflexivity|reflexivity|by eexists|].
  eexists. split_and!; reflexivity.
Qed.

(** Features [{sound: true}] and no listener: the error names
    [soundVolume] (and [pause]), and the chain goes on. *)
Lemma missing_listeners_reported_witness :
  ∃ msg,
    validateListeners (connect_and_listen sound_only) = Throw (Error msg) ∧
    contains "soundVolume" msg ∧
    (@startupChain (example_externals false) Fulfils (connect_and_listen sound_only)).1
      = Fulfils.
Proof.
  destruct (@missing_listeners_reported (example_externals false) soundVolume Fulfils
              (connect_and_listen sound_only)) as (msg & Hthrow & Hnames & Hf & _).
  - split; [|reflexivity]. right. exists "sound". split; [|reflexivity].
    unfold featureToStateMap. in_list.
  - done.
  - exists msg. split_and!; [done| |done].
    apply (Hnames soundVolume). split; [|reflexivity].
    right. exists "sound". split; [|reflexivity].
    unfold featureToStateMap. in_list.
Defined.

(** C2 as stated fails: with features [{sound: true}] and no listener on
    [soundVolume], the startup does not fail; the error that lists
    [soundVolume] is logged as a warning, [loaded] is sent and [ready] is
    [true]. *)
Lemma missing_listeners_do_not_fail_startup :
  ¬ startup_fails sound_only_startup ∧
  debugLog (started sound_only_startup) =
    [("warn",
      LExn (Error "Application state is missing required listeners: soundVolume, pause."))] ∧
  (sent (container (started sound_only_startup))).*1 = ["features"; "keepFocus"; "loaded"] ∧
  value (state (started sound_only_startup) ready) = JBool true.
Proof. split_and!; [by vm_compute|reflexivity|reflexivity|reflexivity]. Qed.

(** Three descriptors, the second's preload rejecting. *)
Lemma one_failed_preload_is_isolated_witness :
  preloadFailed (objects (run_reg (setupPlugins [1; 0] id three_plugins (blank ∅)).2) 1)
    = true ∧
  _plugins (run_reg (setupPlugins [1; 0] id three_plugins (blank ∅)).2) = [0; 2] ∧
  (InitCalled 1 ∉ run_trace (setupPlugins [1; 0] id three_plugins (blank ∅)).2).
Proof.
  destruct (one_failed_preload_is_isolated [1; 0] id three_plugins (blank ∅)
              [0] [2] 1 (Error "no network"))
    as (_ & _ & _ & _ & Hflag & _ & Hinit & _).
  - reflexivity.
  - exists (rejecting (Error "no network")). by split.
  - intros r Hr. exists resolving. split; [|done].
    apply elem_of_cons in Hr as [->|Hr]; [done|].
    apply elem_of_cons in Hr as [->|Hr]; [done|]. by apply elem_of_nil in Hr.
  - split_and!; [exact Hflag|reflexivity|exact Hinit].
Defined.

(** The same three descriptors through a whole startup: the chain ends. *)
Lemma startup_chain_completes_witness :
  ∃ run,
    @startup (example_externals false) "" default_config [1; 0] id three_plugins
      = StartupChain Fulfils run ∧
    list.last (sent (container (run_app run))) = Some ("loaded", JUndefined) ∧
    value (state (run_app run) ready) = JBool true.
Proof.
  edestruct (@startup_chain_completes (example_externals false) "" default_config
               [1; 0] id three_plugins) as (run & Hrun & Hl & Hr & _).
  - reflexivity.
  - repeat constructor; discriminate.
  - exists run. by split_and!.
Defined.

(** C9 as stated fails: when a [preload] hook throws, [setupPlugins()]
    throws and so does the constructor; no chain is attached, [loaded] is
    never sent and [ready] stays [false]. And when a preload promise never
    settles, the chain never gets to run: again no [loaded], and [ready]
    stays [false]. *)
Lemma throwing_preload_escapes_the_chain :
  (∃ run, throwing_startup = StartupThrew (Error "preload threw") run) ∧
  (sent (container (started throwing_startup))).*1 = ["features"; "keepFocus"] ∧
  value (state (started throwing_startup) ready) = JBool false ∧
  (∃ run, hanging_startup = StartupChain Pends run) ∧
  (sent (container (started hanging_startup))).*1 = ["features"; "keepFocus"] ∧
  value (state (started hanging_startup) ready) = JBool false.
Proof. split_and!; [by eexists|reflexivity|reflexivity|by eexists|reflexivity|reflexivity]. Qed.

(** [soundVolume] with 0.8 on a fresh application. *)
Lemma container_event_sets_property_witness :
  value (state (@receive (example_externals false) "soundVolume" (JNum 0.8)
                  (started (plain_startup false))) soundVolume) = JNum 0.8.
Proof.
  destruct (@container_event_sets_property (example_externals false) soundVolume
              (JNum 0.8) (started (plain_startup false))) as (Hset & _).
  - unfold events. in_list.
  - reflexivity.
  - apply Hset. reflexivity.
Defined.

(** [soundVolume] with 0, then muted and unmuted: 1. *)
Lemma muting_silence_unmutes_to_full_witness :
  value (state (@receive (example_externals false) "soundMuted" (JBool false)
                  (@receive (example_externals false) "soundMuted" (JBool true)
                     (@receive (example_externals false) "soundVolume" (JNum 0)
                        (started (plain_startup false))))) soundVolume) = JNum 1.
Proof.
  destruct (@muting_silence_unmutes_to_full (example_externals false) "soundMuted"
              soundVolume
              (@receive (example_externals false) "soundVolume" (JNum 0)
                 (started (plain_startup false)))) as (_ & Hone).
  - unfold legacyListeners. in_list.
  - reflexivity.
  - reflexivity.
  - exact Hone.
Defined.

(** [musicMuted] leaves [soundVolume] at 0.8. *)
Lemma legacy_mute_touches_only_its_volume_witness :
  state (@receive (example_externals false) "musicMuted" (JBool true) (app_at_08 false))
        soundVolume
  = state (app_at_08 false) soundVolume.
Proof.
  destruct (@legacy_mute_touches_only_its_volume (example_externals false) "musicMuted"
              musicVolume (JBool true) (app_at_08 false)) as (Hframe & _).
  - unfold legacyListeners. in_list.
  - reflexivity.
  - by apply Hframe.
Defined.


(** The fetch answers with a string. *)
Lemma fetched_playOptions_replace_witness :
  value (state (@receive_fetch (example_externals false) "playOptions" (JStr "fetched")
                  (started (plain_startup false))) playOptions) = JStr "fetched".
Proof.
  destruct (@fetched_playOptions_replace (example_externals false) (JStr "fetched") ∅
              (started (plain_startup false))) as (Hval & _).
  - reflexivity.
  - reflexivity.
  - exact Hval.
Defined.

(** [?playOptions={}] with a decoder that changes nothing. *)
Lemma valid_playOptions_are_stored_witness :
  ∃ app,
    @queryPlayOptions (example_externals false) "?playOptions={}"
      (connect_and_listen default_config) = Normal app ∧
    value (state app playOptions) = JObj ∅ ∧ debugLog app = [].
Proof.
  destruct (@valid_playOptions_are_stored (example_externals false) "?playOptions={}"
              default_config)
    as (matchedToken & raw & before & tail & Hexec & Hraw & _ & Hstored).
  - by exists "?", "{}".
  - injection Hexec as <-. injection Hraw as <-.
    destruct (Hstored "{}" (JObj ∅) eq_refl eq_refl) as (app & Happ & Hval & Hlog & _).
    by exists app.
Defined.

(** [?lang=en]: nothing to parse. *)
Lemma no_playOptions_parameter_no_effect_witness :
  @queryPlayOptions (example_externals false) "?lang=en" (connect_and_listen default_config)
  = Normal (connect_and_listen default_config).
Proof.
  apply (@no_playOptions_parameter_no_effect (example_externals false)).
  intros Hc. by apply exec_playOptions_matches in Hc as [? [=]].
Defined.

(** [?playOptions=%] with a decoder that rejects it. *)
Lemma undecodable_playOptions_throw_witness :
  @constructor picky_externals "?playOptions=%" default_config three_plugins
  = ConstructorThrew {| exn_name := "URIError"; message := "URI malformed" |}
      (connect_and_listen default_config) [].
Proof.
  destruct (@undecodable_playOptions_throw picky_externals "?playOptions=%" default_config)
    as (matchedToken & raw & before & tail & Hexec & Hraw & _ & Hthrow).
  - by exists "?", "%".
  - injection Hexec as <-. injection Hraw as <-.
    by destruct (Hthrow {| exn_name := "URIError"; message := "URI malformed" |}
                   [] id three_plugins eq_refl) as (Hc & _).
Defined.

(** No feature enabled and a listener on [pause]. *)
Lemma clean_startup_logs_nothing_witness :
  debugLog (@startupChain (example_externals false) Fulfils heard_app).2 = [].
Proof.
  destruct (@clean_startup_logs_nothing (example_externals false) heard_app)
    as (_ & Hlog & _).
  - intros c Hc. apply unheard_missing in Hc. by apply elem_of_nil in Hc.
  - exact Hlog.
Defined.


(** Two descriptors with every hook. *)
Lemma every_hook_runs_once_witness :
  (setupPlugins [] id (two_plugins (full "a") (full "b")) (blank ∅)).1
  = SetupPromise Fulfils.
Proof.
  destruct (every_hook_runs_once [] id (two_plugins (full "a") (full "b")) (blank ∅))
    as (order & _ & Hout & _).
  - intros r Hr. assert (Hcases : r = 0 ∨ r = 1).
    { apply elem_of_cons in Hr as [->|Hr]; [by left|].
      apply list_elem_of_singleton in Hr as ->. by right. }
    destruct Hcases as [-> | ->];
      (split_and!; [by exists resolving|done|by exists quiet|by exists quiet]).
  - exact Hout.
Defined.

(** The first of two descriptors throws in [init]. *)
Lemma throwing_init_aborts_startup_witness :
  (setupPlugins [] id (two_plugins (throwing_init "a") (full "b")) (blank ∅)).1
  = SetupPromise (Rejects (Error "init threw")).
Proof.
  destruct (throwing_init_aborts_startup [] id
              (two_plugins (throwing_init "a") (full "b")) (blank ∅)
              [] [1] 0 (Error "init threw")) as (order & _ & Hout & _).
  - reflexivity.
  - intros r Hr. assert (Hcases : r = 0 ∨ r = 1).
    { apply elem_of_cons in Hr as [->|Hr]; [by left|].
      apply list_elem_of_singleton in Hr as ->. by right. }
    destruct Hcases as [-> | ->]; (split; [by exists resolving|done]).
  - intros r Hr. by apply elem_of_nil in Hr.
  - by exists (failing (Error "init threw")).
  - exact Hout.
Defined.

(** The first of two descriptors throws in [start]. *)
Lemma throwing_start_aborts_startup_witness :
  (setupPlugins [] id (two_plugins (throwing_start "a") (full "b")) (blank ∅)).1
  = SetupPromise (Rejects (Error "start threw")).
Proof.
  destruct (throwing_start_aborts_startup [] id
              (two_plugins (throwing_start "a") (full "b")) (blank ∅)
              [] [1] 0 (Error "start threw")) as (order & _ & Hout & _).
  - reflexivity.
  - intros r Hr. assert (Hcases : r = 0 ∨ r = 1).
    { apply elem_of_cons in Hr as [->|Hr]; [by left|].
      apply list_elem_of_singleton in Hr as ->. by right. }
    destruct Hcases as [-> | ->]; (split_and!; [by exists resolving|done|by exists quiet]).
  - intros r Hr. by apply elem_of_nil in Hr.
  - by exists (failing (Error "start threw")).
  - exact Hout.
Defined.

(** One promise pends, another rejects. *)
Lemma pending_preload_blocks_startup_witness :
  (setupPlugins_promise [] [(0, Pends); (1, Rejects (Error "no network"))]
     {| run_reg := three_plugins; run_app := blank ∅; run_trace := [] |}).1 = Pends.
Proof.
  destruct (pending_preload_blocks_startup [] [(0, Pends); (1, Rejects (Error "no network"))]
              {| run_reg := three_plugins; run_app := blank ∅; run_trace := [] |} 0)
    as (order & _ & Hout & _).
  - by left.
  - exact Hout.
Defined.


(** A languages file is loaded, with the language option set. *)
Lemma languages_preload_calls_done_once_witness :
  ∃ ended new,
    LanguagesPlugin.preload_to_end languages_env id (languages_app (JStr "lang.json"))
      = Some (Normal ended) ∧
    LanguagesPlugin.calls ended =
      LanguagesPlugin.calls (languages_app (JStr "lang.json")) ++ new
      ++ [LanguagesPlugin.Done] ∧
    (LanguagesPlugin.Done ∉ new).
Proof.
  edestruct (languages_preload_calls_done_once languages_env id
               (languages_app (JStr "lang.json"))) as (new & Hcalls & Hnot & _).
  - done.
  - reflexivity.
  - eexists _, new. by split_and!.
Defined.


(** The descriptor flagged in one startup is not preloaded in the next. *)
Lemma failed_plugin_is_gone_for_good_witness :
  PreloadCalled 1 ∉
    run_trace (setupPlugins [] id (run_reg (afterPreloads flagged_run).2) (blank ∅)).2.
Proof.
  destruct (failed_plugin_is_gone_for_good flagged_run 1 [] id (blank ∅))
    as (_ & Hpre & _).
  - reflexivity.
  - exact Hpre.
Defined.

(** The host program attaches a listener to [pause] right after the
    constructor. *)
Lemma listeners_attached_after_construction_count_witness :
  ∃ run,
    @startup (example_externals false) "" default_config [] (λ app, (listen_to_pause app).1)
      (no_plugins (λ _, bare "")) = StartupChain Fulfils run ∧
    debugLog (run_app run) = [].
Proof.
  destruct (@listeners_attached_after_construction_count (example_externals false) ""
              default_config [] (λ app, (listen_to_pause app).1) (λ _, bare "")
              (connect_and_listen default_config)) as (run & Hrun & Hlog & _).
  - reflexivity.
  - intros c Hc. apply unheard_missing in Hc. by apply elem_of_nil in Hc.
  - exists run. by split.
Defined.
